(** * cache2go: the cache table and its items

    A shallow embedding of [cacheitem.go], [cachetable.go] and [cache.go].

    - A [*CacheItem] is a pointer: items live in a heap and the table's map
      holds addresses, so that "the same item" means "the same address" and
      [KeepAlive] through one reference is seen through every other one.
    - [time.Now()] reads the clock of the world.  The clock is monotonic and
      moves between calls of the package and, inside a call, between one
      reading and the next: a function that reads it more than once is given
      the time that passes from each reading to the following one.
    - Callbacks are user code.  They are represented by an identifier and
      every invocation is recorded, in order, in the world's event list.  A
      callback that calls back into the table is outside this model.
    - The mutexes are not modelled: every operation runs alone, from its
      first [Lock] to its last [Unlock].
    - Durations and the access counter are int64 in the source.  They are
      integers here, with the wrap-around written where the code computes:
      [accessCount++] and the subtraction of durations in [expirationCheck];
      the library's [Time.Sub] saturates.
    - [table.log] writes to an external logger and changes nothing in the
      table; it is left out. *)

From Stdlib Require Import ZArith Lia.
From stdpp Require Import gmap strings list fin_maps sorting.

Open Scope Z_scope.

(** ** int64 and package time *)

Definition min_int64 : Z := - 2 ^ 63.
Definition max_int64 : Z := 2 ^ 63 - 1.

(** Two's complement wrap-around of a 64-bit signed result. *)
Definition wrap_int64 (z : Z) : Z := (z + 2 ^ 63) mod 2 ^ 64 - 2 ^ 63.

Definition int64 (z : Z) : Prop := min_int64 <= z <= max_int64.

Module time.

(** An instant, in nanoseconds on the monotonic clock. *)
Definition Time : Type := Z.

(** [type Duration int64], a count of nanoseconds. *)
Definition Duration : Type := Z.

(** [t.Sub(u)]: the duration t-u, saturated at the largest and smallest
    [Duration] when it does not fit. *)
Definition Sub (t u : Time) : Duration :=
  Z.max min_int64 (Z.min max_int64 (t - u)).

(** [*time.Timer] as made by [time.AfterFunc]: when it is due and whether
    it is still waiting ([Stop], or firing, ends the wait). *)
Record Timer : Type := mkTimer { fireAt : Time; active : bool }.

Definition Stop (t : Timer) : Timer := {| fireAt := fireAt t; active := false |}.

End time.

(** A pointer to a [CacheItem]: its index in the heap. *)
Abbreviation ptr := nat.

(** A registered callback function, by identity. *)
Definition Callback : Type := nat.

(** Modelled from the spec: the two error values of [errors.go], which is not
    among the source files; [KeyNotFound] and [KeyNotFoundOrLoadable] of the
    error taxonomy. *)
Inductive error : Type :=
  | ErrKeyNotFound
  | ErrKeyNotFoundOrLoadable.

Section cache2go.

Context {K : Type} {EqK : EqDecision K} {CountK : Countable K} {V : Type}.

(** ** cacheitem.go *)

Record CacheItem : Type := mkCacheItem {
  key : K;
  data : V;
  lifeSpan : time.Duration;
  createdOn : time.Time;
  accessedOn : time.Time;
  accessCount : Z;
  aboutToExpire : list Callback
}.

(** What a callback was called with. *)
Inductive Event : Type :=
  | AddedItemCall (f : Callback) (item : ptr)
  | AboutToDeleteItemCall (f : Callback) (item : ptr)
  | AboutToExpireCall (f : Callback) (k : K).

(** A data loader is user code outside the package, where [NewCacheItem] is
    the constructor of items: for a key and arguments it returns nil, or the
    item it builds with [NewCacheItem k l d]. *)
Definition Loader : Type := K → list V → option (K * time.Duration * V).

(** ** cachetable.go *)

Record CacheTable : Type := mkCacheTable {
  name : string;
  items : gmap K ptr;
  cleanupTimer : option time.Timer;
  cleanupInterval : time.Duration;
  logger : option nat;
  loadData : option Loader;
  addedItem : list Callback;
  aboutToDeleteItem : list Callback
}.

Record CacheItemPair : Type := mkCacheItemPair {
  Key : K;
  AccessCount : Z
}.

(** The state the package runs in. *)
Record World : Type := mkWorld {
  heap : list CacheItem;
  table : CacheTable;
  clock : time.Time;
  events : list Event
}.

(** Result of a call that returns an item pointer and an error. *)
Inductive Result : Type :=
  | Ok (item : ptr)
  | Err (e : error).

(** *** Field updates *)

Definition set_heap (h : list CacheItem) (w : World) : World :=
  {| heap := h; table := table w; clock := clock w; events := events w |}.

Definition set_table (t : CacheTable) (w : World) : World :=
  {| heap := heap w; table := t; clock := clock w; events := events w |}.

Definition set_clock (c : time.Time) (w : World) : World :=
  {| heap := heap w; table := table w; clock := c; events := events w |}.

Definition set_items (m : gmap K ptr) (t : CacheTable) : CacheTable :=
  {| name := name t; items := m; cleanupTimer := cleanupTimer t;
     cleanupInterval := cleanupInterval t; logger := logger t;
     loadData := loadData t; addedItem := addedItem t;
     aboutToDeleteItem := aboutToDeleteItem t |}.

Definition set_cleanupTimer (tm : option time.Timer) (t : CacheTable) : CacheTable :=
  {| name := name t; items := items t; cleanupTimer := tm;
     cleanupInterval := cleanupInterval t; logger := logger t;
     loadData := loadData t; addedItem := addedItem t;
     aboutToDeleteItem := aboutToDeleteItem t |}.

Definition set_cleanupInterval (d : time.Duration) (t : CacheTable) : CacheTable :=
  {| name := name t; items := items t; cleanupTimer := cleanupTimer t;
     cleanupInterval := d; logger := logger t;
     loadData := loadData t; addedItem := addedItem t;
     aboutToDeleteItem := aboutToDeleteItem t |}.

Definition set_logger (l : option nat) (t : CacheTable) : CacheTable :=
  {| name := name t; items := items t; cleanupTimer := cleanupTimer t;
     cleanupInterval := cleanupInterval t; logger := l;
     loadData := loadData t; addedItem := addedItem t;
     aboutToDeleteItem := aboutToDeleteItem t |}.

Definition set_loadData (f : option Loader) (t : CacheTable) : CacheTable :=
  {| name := name t; items := items t; cleanupTimer := cleanupTimer t;
     cleanupInterval := cleanupInterval t; logger := logger t;
     loadData := f; addedItem := addedItem t;
     aboutToDeleteItem := aboutToDeleteItem t |}.

Definition set_addedItem (l : list Callback) (t : CacheTable) : CacheTable :=
  {| name := name t; items := items t; cleanupTimer := cleanupTimer t;
     cleanupInterval := cleanupInterval t; logger := logger t;
     loadData := loadData t; addedItem := l;
     aboutToDeleteItem := aboutToDeleteItem t |}.

Definition set_aboutToDeleteItem (l : list Callback) (t : CacheTable) : CacheTable :=
  {| name := name t; items := items t; cleanupTimer := cleanupTimer t;
     cleanupInterval := cleanupInterval t; logger := logger t;
     loadData := loadData t; addedItem := addedItem t;
     aboutToDeleteItem := l |}.

(** The callbacks of [fs] are called in list order; each call is recorded. *)
Definition call (mk : Callback → Event) (fs : list Callback) (w : World) : World :=
  {| heap := heap w; table := table w; clock := clock w;
     events := events w ++ fmap mk fs |}.

(** ** Items *)

(** [&CacheItem{...}]: a new item at a fresh address. *)
Definition new (it : CacheItem) (w : World) : ptr * World :=
  (length (heap w), set_heap (heap w ++ [it]) w).

Definition NewCacheItem (k : K) (l : time.Duration) (d : V) (w : World) : ptr * World :=
  let t := clock w in
  new {| key := k; lifeSpan := l; createdOn := t; accessedOn := t;
         accessCount := 0; aboutToExpire := []; data := d |} w.

Definition keepAlive (now : time.Time) (it : CacheItem) : CacheItem :=
  {| key := key it; data := data it; lifeSpan := lifeSpan it;
     createdOn := createdOn it;
     accessedOn := now;
     accessCount := wrap_int64 (accessCount it + 1);
     aboutToExpire := aboutToExpire it |}.

Definition KeepAlive (item : ptr) (w : World) : World :=
  set_heap (alter (keepAlive (clock w)) item (heap w)) w.

Definition set_aboutToExpire (l : list Callback) (it : CacheItem) : CacheItem :=
  {| key := key it; data := data it; lifeSpan := lifeSpan it;
     createdOn := createdOn it; accessedOn := accessedOn it;
     accessCount := accessCount it; aboutToExpire := l |}.

Definition RemoveAboutToExpireCallback (item : ptr) (w : World) : World :=
  set_heap (alter (set_aboutToExpire []) item (heap w)) w.

Definition AddAboutToExpireCallback (item : ptr) (f : Callback) (w : World) : World :=
  set_heap (alter (λ it, set_aboutToExpire (aboutToExpire it ++ [f]) it) item (heap w)) w.

Definition SetAboutToExpireCallback (item : ptr) (f : Callback) (w : World) : World :=
  let w1 :=
    match heap w !! item with
    | Some it =>
        if (0 <? length (aboutToExpire it))%nat
        then RemoveAboutToExpireCallback item w else w
    | None => w
    end in
  set_heap (alter (λ it, set_aboutToExpire (aboutToExpire it ++ [f]) it) item (heap w1)) w1.

(** ** The table *)

(** [for k, v := range m]: Go visits the entries of a map in an order of its
    own choosing; [range] is that choice, any enumeration of the entries. *)
Variable range : gmap K ptr → list (K * ptr).

Definition Count (w : World) : nat := size (items (table w)).

Definition SetDataLoader (f : option Loader) (w : World) : World :=
  set_table (set_loadData f (table w)) w.

Definition RemoveAddedItemCallbacks (w : World) : World :=
  set_table (set_addedItem [] (table w)) w.

Definition AddAddedItemCallback (f : Callback) (w : World) : World :=
  set_table (set_addedItem (addedItem (table w) ++ [f]) (table w)) w.

Definition SetAddedItemCallback (f : Callback) (w : World) : World :=
  let w1 :=
    if (0 <? length (addedItem (table w)))%nat
    then RemoveAddedItemCallbacks w else w in
  set_table (set_addedItem (addedItem (table w1) ++ [f]) (table w1)) w1.

Definition RemoveAboutToDeleteItemCallback (w : World) : World :=
  set_table (set_aboutToDeleteItem [] (table w)) w.

Definition AddAboutToDeleteItemCallback (f : Callback) (w : World) : World :=
  set_table (set_aboutToDeleteItem (aboutToDeleteItem (table w) ++ [f]) (table w)) w.

Definition SetAboutToDeleteItemCallback (f : Callback) (w : World) : World :=
  let w1 :=
    if (0 <? length (aboutToDeleteItem (table w)))%nat
    then RemoveAboutToDeleteItemCallback w else w in
  set_table (set_aboutToDeleteItem (aboutToDeleteItem (table w1) ++ [f]) (table w1)) w1.

Definition SetLogger (l : option nat) (w : World) : World :=
  set_table (set_logger l (table w)) w.

Definition deleteInternal (k : K) (w : World) : World * Result :=
  match items (table w) !! k with
  | None => (w, Err ErrKeyNotFound)
  | Some r =>
      let w1 := call (λ f, AboutToDeleteItemCall f r) (aboutToDeleteItem (table w)) w in
      let w2 :=
        match heap w1 !! r with
        | Some it => call (λ f, AboutToExpireCall f k) (aboutToExpire it) w1
        | None => w1
        end in
      (set_table (set_items (delete k (items (table w2))) (table w2)) w2, Ok r)
  end.

(** One iteration of the loop of [expirationCheck]; [smallestDuration] is
    carried along with the world. *)
Definition expirationCheck_iter (now : time.Time)
    (st : World * time.Duration) (e : K * ptr) : World * time.Duration :=
  let '(w, smallestDuration) := st in
  let '(k, item) := e in
  match heap w !! item with
  | None => st
  | Some it =>
      let l := lifeSpan it in
      let a := accessedOn it in
      if l =? 0 then st
      else if l <=? time.Sub now a then ((deleteInternal k w).1, smallestDuration)
      else if (smallestDuration =? 0) || (wrap_int64 (l - time.Sub now a) <? smallestDuration)
      then (w, wrap_int64 (l - time.Sub now a))
      else st
  end.

Definition expirationCheck (w : World) : World :=
  let w0 := set_table (set_cleanupTimer (time.Stop <$> cleanupTimer (table w)) (table w)) w in
  let now := clock w0 in
  let '(w1, smallestDuration) :=
    foldl (expirationCheck_iter now) (w0, 0) (range (items (table w0))) in
  let w2 := set_table (set_cleanupInterval smallestDuration (table w1)) w1 in
  if 0 <? smallestDuration
  then set_table (set_cleanupTimer
                    (Some {| time.fireAt := now + smallestDuration; time.active := true |})
                    (table w2)) w2
  else w2.

(** The function given to [time.AfterFunc]: when the armed timer is due it
    starts a run of [expirationCheck]. *)
Definition timerFires (w : World) : World :=
  match cleanupTimer (table w) with
  | Some tm =>
      if time.active tm && (time.fireAt tm <=? clock w)
      then expirationCheck (set_table (set_cleanupTimer (Some (time.Stop tm)) (table w)) w)
      else w
  | None => w
  end.

Definition addInternal (item : ptr) (w : World) : World :=
  match heap w !! item with
  | None => w
  | Some it =>
      let w1 := set_table (set_items (<[key it := item]> (items (table w))) (table w)) w in
      let expDur := cleanupInterval (table w1) in
      let w2 := call (λ f, AddedItemCall f item) (addedItem (table w1)) w1 in
      if (0 <? lifeSpan it) && ((expDur =? 0) || (lifeSpan it <? expDur))
      then expirationCheck w2
      else w2
  end.

(** [Add(key, lifeSpan, data)].  [NewCacheItem] reads [time.Now()] when it
    makes the item; [expirationCheck], if the add protocol runs it, reads
    it again, [late] afterwards: the time the call has taken until then. *)
Definition Add (k : K) (l : time.Duration) (d : V) (late : N) (w : World) : World * ptr :=
  let '(item, w1) := NewCacheItem k l d w in
  (addInternal item (set_clock (clock w1 + Z.of_N late) w1), item).

Definition Delete (k : K) (w : World) : World * Result := deleteInternal k w.

Definition Exists (k : K) (w : World) : bool := bool_decide (is_Some (items (table w) !! k)).

(** [NotFoundAdd(key, lifeSpan, data)], with the time [late] between the
    two readings of the clock, as in [Add]. *)
Definition NotFoundAdd (k : K) (l : time.Duration) (d : V) (late : N) (w : World) : World * bool :=
  match items (table w) !! k with
  | Some _ => (w, false)
  | None =>
      let '(item, w1) := NewCacheItem k l d w in
      (addInternal item (set_clock (clock w1 + Z.of_N late) w1), true)
  end.

(** [Value(key, args...)].  On a hit the clock is read once, by
    [KeepAlive].  On a miss that the loader answers it is read three times:
    when the loader makes its item, [late1] later when [Add] makes its own,
    and [late2] after that if the add protocol runs the scheduler. *)
Definition Value (k : K) (args : list V) (late1 late2 : N) (w : World) : World * Result :=
  match items (table w) !! k with
  | Some r => (KeepAlive r w, Ok r)
  | None =>
      match loadData (table w) with
      | Some load =>
          match load k args with
          | Some (k', l', d') =>
              let '(item, w1) := NewCacheItem k' l' d' w in
              match heap w1 !! item with
              | Some it =>
                  ((Add k (lifeSpan it) (data it) late2
                      (set_clock (clock w1 + Z.of_N late1) w1)).1, Ok item)
              | None => (w1, Ok item)
              end
          | None => (w, Err ErrKeyNotFoundOrLoadable)
          end
      | None => (w, Err ErrKeyNotFound)
      end
  end.

Definition Flush (w : World) : World :=
  let t1 := set_items ∅ (table w) in
  let t2 := set_cleanupInterval 0 t1 in
  set_table (set_cleanupTimer (time.Stop <$> cleanupTimer t2) t2) w.

(** [sort.Sort(p)] with [Less(i, j) = p[i].AccessCount > p[j].AccessCount]:
    some rearrangement of [p] in which no pair is out of order; which one,
    among equal counts, is the library's choice. *)
Variable sort_Sort : list CacheItemPair → list CacheItemPair.

(** The second loop of [MostAccessed].  [c] is only incremented while it is
    below [count], so [c++] stays in range. *)
Fixpoint mostAccessed_loop (m : gmap K ptr) (count c : Z) (r : list ptr)
    (p : list CacheItemPair) : list ptr :=
  match p with
  | [] => r
  | v :: p' =>
      if count <=? c then r
      else
        let r' := match m !! Key v with Some item => r ++ [item] | None => r end in
        mostAccessed_loop m count (c + 1) r' p'
  end.

Definition MostAccessed (count : Z) (w : World) : list ptr :=
  let p :=
    fmap (λ e : K * ptr,
           {| Key := e.1;
              AccessCount := from_option accessCount 0 (heap w !! e.2) |})
        (range (items (table w))) in
  mostAccessed_loop (items (table w)) count 0 [] (sort_Sort p).

(** ** The package in use *)

(** What a program does with a table and its items, one call at a time;
    between calls the clock may move on and the armed timer may fire.  A
    call that reads the clock more than once comes with the time that passes
    before each further reading. *)
Inductive Op : Type :=
  | Sleep (d : N)
  | TimerFires
  | CallNewCacheItem (k : K) (l : time.Duration) (d : V)
  | CallKeepAlive (item : ptr)
  | CallSetAboutToExpireCallback (item : ptr) (f : Callback)
  | CallAddAboutToExpireCallback (item : ptr) (f : Callback)
  | CallRemoveAboutToExpireCallback (item : ptr)
  | CallSetDataLoader (f : option Loader)
  | CallSetAddedItemCallback (f : Callback)
  | CallAddAddedItemCallback (f : Callback)
  | CallRemoveAddedItemCallbacks
  | CallSetAboutToDeleteItemCallback (f : Callback)
  | CallAddAboutToDeleteItemCallback (f : Callback)
  | CallRemoveAboutToDeleteItemCallback
  | CallSetLogger (l : option nat)
  | CallAdd (k : K) (l : time.Duration) (d : V) (late : N)
  | CallDelete (k : K)
  | CallNotFoundAdd (k : K) (l : time.Duration) (d : V) (late : N)
  | CallValue (k : K) (args : list V) (late1 late2 : N)
  | CallFlush.

Definition step (w : World) (op : Op) : World :=
  match op with
  | Sleep d => set_clock (clock w + Z.of_N d) w
  | TimerFires => timerFires w
  | CallNewCacheItem k l d => (NewCacheItem k l d w).2
  | CallKeepAlive item => KeepAlive item w
  | CallSetAboutToExpireCallback item f => SetAboutToExpireCallback item f w
  | CallAddAboutToExpireCallback item f => AddAboutToExpireCallback item f w
  | CallRemoveAboutToExpireCallback item => RemoveAboutToExpireCallback item w
  | CallSetDataLoader f => SetDataLoader f w
  | CallSetAddedItemCallback f => SetAddedItemCallback f w
  | CallAddAddedItemCallback f => AddAddedItemCallback f w
  | CallRemoveAddedItemCallbacks => RemoveAddedItemCallbacks w
  | CallSetAboutToDeleteItemCallback f => SetAboutToDeleteItemCallback f w
  | CallAddAboutToDeleteItemCallback f => AddAboutToDeleteItemCallback f w
  | CallRemoveAboutToDeleteItemCallback => RemoveAboutToDeleteItemCallback w
  | CallSetLogger l => SetLogger l w
  | CallAdd k l d late => (Add k l d late w).1
  | CallDelete k => (Delete k w).1
  | CallNotFoundAdd k l d late => (NotFoundAdd k l d late w).1
  | CallValue k args late1 late2 => (Value k args late1 late2 w).1
  | CallFlush => Flush w
  end.

Definition run (ops : list Op) (w : World) : World := foldl step w ops.

(** ** Vocabulary of the statements *)

(** The test of the loop of [expirationCheck] on an item: its lifespan is not
    0 and has elapsed since the last access. *)
Definition overdue (now : time.Time) (it : CacheItem) : bool :=
  negb (lifeSpan it =? 0) && (lifeSpan it <=? time.Sub now (accessedOn it)).

(** What the loop leaves of [smallestDuration] after an item that stays. *)
Definition next_smallest (now : time.Time) (it : CacheItem) (s : time.Duration) : time.Duration :=
  if lifeSpan it =? 0 then s
  else if (s =? 0) || (wrap_int64 (lifeSpan it - time.Sub now (accessedOn it)) <? s)
  then wrap_int64 (lifeSpan it - time.Sub now (accessedOn it))
  else s.

(** Time left to an item, as the specification writes it. *)
Definition remaining (now : time.Time) (it : CacheItem) : Z :=
  lifeSpan it - (now - accessedOn it).

(** The events of one run of the delete protocol on entry [(k, r)]. *)
Definition delete_events (h : list CacheItem) (fs : list Callback) (k : K) (r : ptr) : list Event :=
  fmap (λ f, AboutToDeleteItemCall f r) fs ++
  match h !! r with
  | Some it => fmap (λ f, AboutToExpireCall f k) (aboutToExpire it)
  | None => []
  end.

(** The scan of [expirationCheck] over the entries [es], read off the heap:
    which entries it deletes, the duration it ends with, the callbacks it
    calls. *)
Definition doomed (h : list CacheItem) (now : time.Time) (e : K * ptr) : bool :=
  match h !! e.2 with Some it => overdue now it | None => false end.

Definition smallest_step (h : list CacheItem) (now : time.Time)
    (s : time.Duration) (e : K * ptr) : time.Duration :=
  match h !! e.2 with
  | Some it => if overdue now it then s else next_smallest now it s
  | None => s
  end.

Definition scan_smallest (h : list CacheItem) (now : time.Time)
    (s : time.Duration) (es : list (K * ptr)) : time.Duration :=
  foldl (smallest_step h now) s es.

Definition scan_events (h : list CacheItem) (fs : list Callback) (now : time.Time)
    (es : list (K * ptr)) : list Event :=
  concat (fmap (λ e, delete_events h fs e.1 e.2) (filter (λ e, doomed h now e = true) es)).

Definition delete_keys (m : gmap K ptr) (ks : list K) : gmap K ptr :=
  foldl (λ m k, delete k m) m ks.

(** An entry of the scan that stays and counts for the next interval. *)
Definition candidate (h : list CacheItem) (now : time.Time)
    (e : K * ptr) (it : CacheItem) : Prop :=
  h !! e.2 = Some it ∧ lifeSpan it ≠ 0 ∧ overdue now it = false.

(** Items with an int64 lifespan that were last accessed no later than [now]. *)
Definition timely (h : list CacheItem) (now : time.Time) (es : list (K * ptr)) : Prop :=
  ∀ e it, e ∈ es → h !! e.2 = Some it → lifeSpan it <= max_int64 ∧ accessedOn it <= now.

(** The entry [(k, p)] of the table of [w] holds item [it]. *)
Definition holds (w : World) (k : K) (p : ptr) (it : CacheItem) : Prop :=
  items (table w) !! k = Some p ∧ heap w !! p = Some it.

(** The lifespan of [it] is not 0 and has elapsed at [now]. *)
Definition elapsed (now : time.Time) (it : CacheItem) : Prop :=
  lifeSpan it ≠ 0 ∧ lifeSpan it <= now - accessedOn it.

(** An item as [NewCacheItem k l d] makes it at time [now]. *)
Definition pristine (now : time.Time) (k : K) (l : time.Duration) (d : V)
    (it : CacheItem) : Prop :=
  key it = k ∧ data it = d ∧ lifeSpan it = l
  ∧ createdOn it = now ∧ accessedOn it = now
  ∧ accessCount it = 0 ∧ aboutToExpire it = [].

(** The event is a call of an added-item callback. *)
Definition is_added (e : Event) : Prop :=
  match e with AddedItemCall _ _ => True | _ => False end.

(** The world once the add protocol has stored [item] and called the
    added-item callbacks, before it decides about the scheduler. *)
Definition stored (item : ptr) (it : CacheItem) (w : World) : World :=
  call (λ f, AddedItemCall f item) (addedItem (table w))
    (set_table (set_items (<[key it := item]> (items (table w))) (table w)) w).

(** The access count of the item at [p]. *)
Definition countOf (w : World) (p : nat) : Z :=
  from_option accessCount 0 (heap w !! p).

(** Descending order of counts. *)
Definition desc : relation Z := λ x y, y <= x.

(** The access counts of the items of the table. *)
Definition counts (w : World) : list Z :=
  fmap (countOf w) (map_to_list (items (table w))).*2.

(** An item [it'] is [it] left alone or kept alive once at [now], as far as
    the access time and count go. *)
Definition touched (now : time.Time) (it it' : CacheItem) : Prop :=
  (accessedOn it' = accessedOn it ∧ accessCount it' = accessCount it)
  ∨ (accessedOn it' = now ∧ accessCount it' = wrap_int64 (accessCount it + 1)).

(** [w'] comes after [w]: the clock has not gone back, every item is still
    there, left alone or kept alive once, and the other items are new, made
    in between. *)
Definition follows (w w' : World) : Prop :=
  clock w <= clock w'
  ∧ (∀ p it, heap w !! p = Some it → ∃ it', heap w' !! p = Some it' ∧ touched (clock w) it it')
  ∧ (∀ p it', heap w' !! p = Some it' → heap w !! p = None →
       clock w <= accessedOn it' <= clock w' ∧ accessCount it' = 0).

(** No item was accessed later than the clock shows, and every access count
    is at least 0 and leaves room for [n] more increments of an int64. *)
Definition sound (n : Z) (w : World) : Prop :=
  n <= max_int64
  ∧ ∀ p it, heap w !! p = Some it →
      accessedOn it <= clock w ∧ 0 <= accessCount it ∧ accessCount it + n <= max_int64.

(** Every item of [h] is in [h'], its access count and time not lower. *)
Definition heap_le (h h' : list CacheItem) : Prop :=
  ∀ p it, h !! p = Some it →
    ∃ it', h' !! p = Some it'
           ∧ accessCount it <= accessCount it' ∧ accessedOn it <= accessedOn it'.

(** ** cacheitem.go, the accessors

    Each reads a field through the pointer; [None] stands for a pointer
    that addresses no item, which Go does not have.  [Key] and
    [AccessCount] are also fields of [CacheItemPair], so the two methods of
    the item carry its name. *)

Definition LifeSpan (item : ptr) (w : World) : option time.Duration :=
  lifeSpan <$> heap w !! item.

Definition AccessedOn (item : ptr) (w : World) : option time.Time :=
  accessedOn <$> heap w !! item.

Definition CreatedOn (item : ptr) (w : World) : option time.Time :=
  createdOn <$> heap w !! item.

Definition CacheItem_AccessCount (item : ptr) (w : World) : option Z :=
  accessCount <$> heap w !! item.

Definition CacheItem_Key (item : ptr) (w : World) : option K :=
  key <$> heap w !! item.

Definition Data (item : ptr) (w : World) : option V :=
  data <$> heap w !! item.

(** ** cachetable.go, Foreach *)

(** [Foreach(trans)]: [trans] is user code; it is given here the state [A]
    it works on, and is called on every entry in the order of [range]. *)
Definition Foreach {A : Type} (trans : K → ptr → A → A) (a : A) (w : World) : A :=
  foldl (λ a e, trans e.1 e.2 a) a (range (items (table w))).

(** ** cache.go *)

(** The package variable [cache], a map from names to tables, with the
    tables it points to. *)
Record Registry : Type := mkRegistry {
  tables : list CacheTable;
  cache : gmap string nat
}.

(** [Cache(table)]: the table of that name, made empty on first use.  The
    second lookup is the one done again under the write lock. *)
Definition Cache (tname : string) (reg : Registry) : nat * Registry :=
  match cache reg !! tname with
  | Some t => (t, reg)
  | None =>
      match cache reg !! tname with
      | Some t => (t, reg)
      | None =>
          let t := length (tables reg) in
          (t, {| tables := tables reg ++
                   [ {| name := tname; items := ∅; cleanupTimer := None;
                        cleanupInterval := 0; logger := None; loadData := None;
                        addedItem := []; aboutToDeleteItem := [] |} ];
                 cache := <[tname := t]> (cache reg) |})
      end
  end.

(** ** More vocabulary *)

(** Every entry of the table points to an item, and that item has the key of
    the entry. *)
Definition table_wf (w : World) : Prop :=
  ∀ k p, items (table w) !! k = Some p → ∃ it, heap w !! p = Some it ∧ key it = k.

(** A timer is waiting exactly when the cleanup interval is positive. *)
Definition timer_ok (w : World) : Prop :=
  0 < cleanupInterval (table w) ↔
  ∃ tm, cleanupTimer (table w) = Some tm ∧ time.active tm = true.

(** The fields of an item that its accessors call immutable. *)
Definition same_identity (it it' : CacheItem) : Prop :=
  key it' = key it ∧ data it' = data it
  ∧ lifeSpan it' = lifeSpan it ∧ createdOn it' = createdOn it.

(** Every name of the registry points to a table, and that table has the
    name. *)
Definition registry_wf (reg : Registry) : Prop :=
  ∀ n t, cache reg !! n = Some t → ∃ tb, tables reg !! t = Some tb ∧ name tb = n.

(** The heap [h'] is [h] with at most one item updated, its immutable
    fields kept, and new items after it. *)
Definition heap_evolves (h h' : list CacheItem) : Prop :=
  ∃ (g : CacheItem → CacheItem) (i : nat) (new : list CacheItem),
    h' = alter g i h ++ new ∧ ∀ it, same_identity it (g it).


End cache2go.

(** ** A table of strings, for the examples *)

Module Ex.

Definition range (m : gmap string ptr) : list (string * ptr) := map_to_list m.

Definition Less (x y : @CacheItemPair string) : Prop := AccessCount y <= AccessCount x.

#[local] Instance Less_dec : RelDecision Less :=
  λ x y, decide (AccessCount y <= AccessCount x).

Definition sort_Sort (p : list (@CacheItemPair string)) : list (@CacheItemPair string) :=
  merge_sort Less p.

(** [Cache(name)]: the empty table the registry creates. *)
Definition Cache (name : string) : World (K:=string) (V:=string) :=
  {| heap := [];
     table := {| name := name; items := ∅; cleanupTimer := None;
                 cleanupInterval := 0; logger := None; loadData := None;
                 addedItem := []; aboutToDeleteItem := [] |};
     clock := 0;
     events := [] |}.

(** The loader of [examples/dataloader]: an immortal item made from the key. *)
Definition loader : Loader (K:=string) (V:=string) :=
  λ k _, Some (k, 0, "This is a test with key " +:+ k).

Definition myCache : World (K:=string) (V:=string) := Cache "myCache".

(** A table with a data loader and nothing else. *)
Definition loading : World (K:=string) (V:=string) :=
  SetDataLoader (Some loader) myCache.

(** A table holding an item of lifespan 5 and one of lifespan -1. *)
Definition negative : World (K:=string) (V:=string) := Eval vm_compute in
  run range [CallAdd "a" 5 "x" 0; CallAdd "b" (-1) "y" 0] myCache.

(** At time 7: "a" of lifespan 10 accessed at 6, "b" immortal, "c" of
    lifespan 4 never accessed since 0, and a callback of each kind. *)
Definition mixed : World (K:=string) (V:=string) := Eval vm_compute in
  run range [CallSetAboutToDeleteItemCallback 1%nat;
             CallAdd "a" 10 "x" 0; CallAdd "b" 0 "y" 0; CallAdd "c" 4 "z" 0;
             CallSetAboutToExpireCallback 2%nat 7%nat;
             Sleep 6; CallValue "a" [] 0 0; Sleep 1] myCache.

(** Four immortal items, accessed 5, 1, 9 and 3 times. *)
Definition ranked : World (K:=string) (V:=string) := Eval vm_compute in
  run range ([CallAdd "a" 0 "x" 0; CallAdd "b" 0 "x" 0; CallAdd "c" 0 "x" 0; CallAdd "d" 0 "x" 0]
             ++ replicate 5 (CallValue "a" [] 0 0) ++ replicate 1 (CallValue "b" [] 0 0)
             ++ replicate 9 (CallValue "c" [] 0 0) ++ replicate 3 (CallValue "d" [] 0 0))
      myCache.

(** A table whose loader declines every key. *)
Definition declining : World (K:=string) (V:=string) :=
  SetDataLoader (Some (λ _ _, None)) myCache.

(** [mixed] with one more item made, of lifespan [l], not yet stored. *)
Definition pending (l : time.Duration) : World (K:=string) (V:=string) :=
  (NewCacheItem "k" l "v" mixed).2.

(** The item that [pending l] has made, at address 3. *)
Definition pending_item (l : time.Duration) : CacheItem (K:=string) (V:=string) :=
  {| key := "k"; data := "v"; lifeSpan := l; createdOn := 7; accessedOn := 7;
     accessCount := 0; aboutToExpire := [] |}.

(** The package variable [cache] when the program starts. *)
Definition registry : Registry (K:=string) (V:=string) :=
  {| tables := []; cache := ∅ |}.


End Ex.

(** * Properties *)

Section properties.

Context {K : Type} {EqK : EqDecision K} {CountK : Countable K} {V : Type}.

Implicit Types (w : World (K:=K) (V:=V)) (it : CacheItem (K:=K) (V:=V)).
Implicit Types (k : K) (p r item : ptr) (m : gmap K ptr).
Implicit Types (d : V) (l : time.Duration) (f g : Callback) (fs : list Callback).
Implicit Types (h : list (CacheItem (K:=K) (V:=V))) (e : K * ptr) (es : list (K * ptr)).

(** The order in which [range] visits a map, as in the definitions. *)
Variable range : gmap K ptr → list (K * ptr).

(** *** int64 arithmetic *)

Lemma wrap_int64_id z : int64 z → wrap_int64 z = z.
Proof.
  unfold int64, wrap_int64, min_int64, max_int64. intros Hz.
  rewrite Z.mod_small; lia.
Qed.

Lemma Sub_exact t u : 0 <= t - u <= max_int64 → time.Sub t u = t - u.
Proof. unfold time.Sub, min_int64, max_int64. lia. Qed.

Lemma Sub_le l t u : u <= t → l <= max_int64 → (l <= time.Sub t u ↔ l <= t - u).
Proof. unfold time.Sub, min_int64, max_int64. lia. Qed.

(** *** The delete protocol *)

Lemma deleteInternal_Some k r w :
  items (table w) !! k = Some r →
  deleteInternal k w =
    ({| heap := heap w;
        table := set_items (delete k (items (table w))) (table w);
        clock := clock w;
        events := events w ++ delete_events (heap w) (aboutToDeleteItem (table w)) k r |},
     Ok r).
Proof.
  intros Hk. unfold deleteInternal, delete_events. rewrite Hk. cbn.
  destruct (heap w !! r) as [it|]; unfold set_table, call; cbn; [|by rewrite app_nil_r].
  by rewrite <- app_assoc.
Qed.

Lemma deleteInternal_None k w :
  items (table w) !! k = None → deleteInternal k w = (w, Err ErrKeyNotFound).
Proof. intros Hk. unfold deleteInternal. by rewrite Hk. Qed.

(** *** One iteration of the scan *)

Lemma expirationCheck_iter_eq now w s k p :
  expirationCheck_iter now (w, s) (k, p) =
    match heap w !! p with
    | Some it =>
        if overdue now it then ((deleteInternal k w).1, s)
        else (w, next_smallest now it s)
    | None => (w, s)
    end.
Proof.
  unfold expirationCheck_iter, overdue, next_smallest.
  destruct (heap w !! p) as [it|]; [|done].
  destruct (lifeSpan it =? 0); cbn; [done|].
  destruct (lifeSpan it <=? _); cbn; [done|].
  by destruct (_ || _).
Qed.

Lemma expirationCheck_iter_doomed now w s e :
  expirationCheck_iter now (w, s) e =
    if doomed (heap w) now e
    then ((deleteInternal e.1 w).1, s)
    else (w, smallest_step (heap w) now s e).
Proof.
  destruct e as [k p]. rewrite expirationCheck_iter_eq.
  unfold doomed, smallest_step. cbn.
  destruct (heap w !! p) as [it|]; [|done]. by destruct (overdue now it).
Qed.

Lemma smallest_step_doomed h now s e :
  doomed h now e = true → smallest_step h now s e = s.
Proof.
  unfold doomed, smallest_step. destruct (h !! e.2) as [it|]; [|done].
  by intros ->.
Qed.

Lemma scan_fold now es : ∀ w s,
  NoDup es.*1 →
  (∀ k p, (k, p) ∈ es → items (table w) !! k = Some p) →
  foldl (expirationCheck_iter now) (w, s) es =
    ({| heap := heap w;
        table := set_items (delete_keys (items (table w))
                              (filter (λ e, doomed (heap w) now e = true) es).*1)
                           (table w);
        clock := clock w;
        events := events w ++ scan_events (heap w) (aboutToDeleteItem (table w)) now es |},
     scan_smallest (heap w) now s es).
Proof.
  induction es as [|[k p] es IH]; intros w s Hnd Hin.
  - cbn. unfold scan_events. cbn. rewrite app_nil_r. by destruct w as [? [] ? ?].
  - cbn [foldl]. rewrite expirationCheck_iter_doomed.
    rewrite fmap_cons in Hnd. apply NoDup_cons in Hnd as [Hk Hnd].
    assert (Hp : items (table w) !! k = Some p) by (apply Hin; left).
    unfold scan_events, scan_smallest. rewrite filter_cons. cbn [foldl].
    destruct (doomed (heap w) now (k, p)) eqn:Hd.
    + rewrite decide_True by done. rewrite smallest_step_doomed by done.
      cbn [fst]. rewrite (deleteInternal_Some _ _ _ Hp). cbn [fst].
      rewrite IH; [|done|].
      * cbn [heap table clock events aboutToDeleteItem set_items items].
        by rewrite !fmap_cons, concat_cons, <- app_assoc.
      * intros k' p' Hin'. cbn. rewrite lookup_delete_ne; [apply Hin; by right|].
        intros ->. apply Hk. apply list_elem_of_fmap. by exists (k', p').
    + rewrite decide_False by done. rewrite IH; [done|done|].
      intros; apply Hin. by right.
Qed.

Lemma lookup_delete_keys m ks k :
  delete_keys m ks !! k = if decide (k ∈ ks) then None else m !! k.
Proof.
  revert m. induction ks as [|k' ks IH]; intros m.
  - cbn. by rewrite decide_False by apply not_elem_of_nil.
  - change (delete_keys m (k' :: ks)) with (delete_keys (delete k' m) ks).
    rewrite IH. destruct (decide (k ∈ ks)) as [Hin|Hin].
    + rewrite decide_True; [done|by right].
    + destruct (decide (k = k')) as [->|Hne].
      * rewrite decide_True by left. apply lookup_delete_eq.
      * rewrite decide_False; [by apply lookup_delete_ne|].
        intros [?|?]%elem_of_cons; done.
Qed.

Lemma overdue_true now it :
  lifeSpan it <= max_int64 → accessedOn it <= now →
  overdue now it = true ↔ lifeSpan it ≠ 0 ∧ lifeSpan it <= now - accessedOn it.
Proof.
  intros Hl Ha. unfold overdue.
  rewrite andb_true_iff, negb_true_iff, Z.eqb_neq, Z.leb_le.
  by rewrite (Sub_le _ _ _ Ha Hl).
Qed.

Lemma candidate_remaining h now e it :
  lifeSpan it <= max_int64 → accessedOn it <= now → candidate h now e it →
  wrap_int64 (lifeSpan it - time.Sub now (accessedOn it)) = remaining now it
  ∧ 0 < remaining now it ∧ 0 < lifeSpan it.
Proof.
  intros Hl Ha (_ & Hne & Hov). unfold remaining.
  assert (¬ (lifeSpan it <= now - accessedOn it)) as Hlt.
  { intros Hle. assert (overdue now it = true) by (by apply overdue_true). congruence. }
  rewrite Sub_exact by lia. split; [|lia].
  apply wrap_int64_id. unfold int64, min_int64, max_int64 in *. lia.
Qed.

Lemma smallest_step_candidate h now s e it :
  lifeSpan it <= max_int64 → accessedOn it <= now → candidate h now e it → 0 <= s →
  let s1 := smallest_step h now s e in
  0 < s1 ∧ s1 <= remaining now it ∧ (s ≠ 0 → s1 <= s)
  ∧ (s1 = s ∨ s1 = remaining now it).
Proof.
  intros Hl Ha Hc Hs. destruct (candidate_remaining _ _ _ _ Hl Ha Hc) as (Hw & Hpos & _).
  destruct Hc as (Hh & Hne & Hov). unfold smallest_step, next_smallest.
  rewrite Hh, Hov, Hw. apply Z.eqb_neq in Hne as ->.
  destruct (Z.eqb_spec s 0); cbn; [lia|].
  destruct (Z.ltb_spec (remaining now it) s); lia.
Qed.

Lemma smallest_step_other h now s e :
  (∀ it, ¬ candidate h now e it) → smallest_step h now s e = s.
Proof.
  intros Hc. unfold smallest_step, next_smallest.
  destruct (h !! e.2) as [it|] eqn:Hh; [|done].
  destruct (overdue now it) eqn:Hov; [done|].
  destruct (lifeSpan it =? 0) eqn:Hl; [done|].
  exfalso. apply (Hc it). by apply Z.eqb_neq in Hl.
Qed.

Lemma scan_smallest_spec h now es : ∀ s,
  timely h now es → 0 <= s →
  let r := scan_smallest h now s es in
  0 <= r
  ∧ (r = s ∨ ∃ e it, e ∈ es ∧ candidate h now e it ∧ r = remaining now it)
  ∧ (s ≠ 0 → r <= s ∧ r ≠ 0)
  ∧ (∀ e it, e ∈ es → candidate h now e it → r <= remaining now it ∧ r ≠ 0).
Proof.
  induction es as [|e es IH]; intros s Ht Hs; cbn.
  - split_and!; [lia|by left|lia|intros ?? []%elem_of_nil].
  - assert (timely h now es) as Ht' by (intros ????; eapply Ht; [by right|done]).
    assert ((∃ it, candidate h now e it) ∨ (∀ it, ¬ candidate h now e it))
      as [[it Hcand]|Hno].
    { unfold candidate. destruct (h !! e.2) as [it|]; [|right; by intros ? (? & _)].
      destruct (decide (lifeSpan it = 0)); [right; by intros ? ([= <-] & ? & _)|].
      destruct (overdue now it) eqn:?; [right; intros ? ([= <-] & _ & ?); congruence|].
      left. by exists it. }
    + destruct (Ht e it) as [Hl Ha]; [by left|apply Hcand|].
      destruct (candidate_remaining _ _ _ _ Hl Ha Hcand) as (_ & Hpos & _).
      destruct (smallest_step_candidate _ _ _ _ _ Hl Ha Hcand Hs) as (Hs1 & Hle & Hles & Hor1).
      revert Hs1 Hle Hles Hor1. generalize (smallest_step h now s e). intros s1 ????.
      destruct (IH s1 Ht' ltac:(lia)) as (H0 & Hor & Hs' & Hall).
      destruct Hs' as [Hrs1 Hr0]; [lia|].
      fold (scan_smallest h now s1 es). split_and!; [lia| |lia|].
      * destruct Hor as [->|(e' & it' & ? & ? & ?)].
        -- destruct Hor1 as [->| ->]; [by left|right].
           exists e, it. split; [by left|done].
        -- right. exists e', it'. split; [by right|done].
      * intros e' it' [->|Hin]%elem_of_cons Hc'; [|by eapply Hall].
        assert (it' = it) as ->.
        { destruct Hc' as (? & _), Hcand as (? & _). congruence. }
        lia.
    + rewrite smallest_step_other by done.
      destruct (IH s Ht' Hs) as (H0 & Hor & Hs' & Hall).
      split_and!; [done| |done|].
      * destruct Hor as [?|(e' & it' & ? & ? & ?)]; [by left|right].
        exists e', it'. split; [by right|done].
      * intros e' it' [->|Hin]%elem_of_cons Hc'; [|by eapply Hall].
        by destruct (Hno it').
Qed.

(** *** A whole run of the scheduler *)

(** Go's [range] visits every entry of the map once. *)
Hypothesis range_perm : ∀ m, range m ≡ₚ map_to_list m.

Lemma range_NoDup m : NoDup (range m).*1.
Proof. rewrite (range_perm m). apply NoDup_fst_map_to_list. Qed.

Lemma elem_of_range m k p : (k, p) ∈ range m ↔ m !! k = Some p.
Proof. rewrite (range_perm m). apply elem_of_map_to_list. Qed.

Lemma expirationCheck_eq w :
  let now := clock w in
  let es := range (items (table w)) in
  let s := scan_smallest (heap w) now 0 es in
  expirationCheck range w =
    {| heap := heap w;
       table :=
         {| name := name (table w);
            items := delete_keys (items (table w))
                       (filter (λ e, doomed (heap w) now e = true) es).*1;
            cleanupTimer :=
              if 0 <? s
              then Some {| time.fireAt := now + s; time.active := true |}
              else time.Stop <$> cleanupTimer (table w);
            cleanupInterval := s;
            logger := logger (table w);
            loadData := loadData (table w);
            addedItem := addedItem (table w);
            aboutToDeleteItem := aboutToDeleteItem (table w) |};
       clock := clock w;
       events := events w ++ scan_events (heap w) (aboutToDeleteItem (table w)) now es |}.
Proof.
  intros now es s. unfold expirationCheck.
  rewrite scan_fold.
  - cbn. fold now es s. by destruct (0 <? s).
  - apply range_NoDup.
  - intros k p. cbn. apply elem_of_range.
Qed.

Lemma expirationCheck_lookup w k :
  items (table (expirationCheck range w)) !! k =
    match items (table w) !! k with
    | Some p => if doomed (heap w) (clock w) (k, p) then None else Some p
    | None => None
    end.
Proof.
  rewrite expirationCheck_eq. cbn. rewrite lookup_delete_keys.
  destruct (items (table w) !! k) as [p|] eqn:Hk.
  - destruct (doomed (heap w) (clock w) (k, p)) eqn:Hd.
    + rewrite decide_True; [done|]. apply list_elem_of_fmap. exists (k, p). split; [done|].
      apply list_elem_of_filter. split; [done|]. by apply elem_of_range.
    + rewrite decide_False; [done|].
      intros ([k' p'] & -> & [Hd' Hin]%list_elem_of_filter)%list_elem_of_fmap.
      apply elem_of_range in Hin. cbn in *. congruence.
  - by destruct (decide _).
Qed.

(** C2, amended.  With int64 lifespans and no item accessed later than the
    clock shows, one run of [expirationCheck] deletes exactly the entries
    whose item has a lifespan other than 0 that has elapsed, a negative
    lifespan included; it keeps every item of lifespan 0; the callbacks it
    calls are those of the delete protocol on the deleted entries, in the
    order of the scan; and it leaves as cleanup interval the least time
    remaining among the items of lifespan other than 0 that stay, which all
    have a positive lifespan, or 0 when none stays. *)
Theorem expirationCheck_spec w :
  (∀ k p it, holds w k p it → lifeSpan it <= max_int64 ∧ accessedOn it <= clock w) →
  let now := clock w in
  let w' := expirationCheck range w in
  (∀ k p, items (table w') !! k = Some p ↔
          items (table w) !! k = Some p ∧ ∀ it, heap w !! p = Some it → ¬ elapsed now it)
  ∧ (∀ k p it, holds w k p it → lifeSpan it = 0 → items (table w') !! k = Some p)
  ∧ heap w' = heap w
  ∧ events w' = events w ++
      scan_events (heap w) (aboutToDeleteItem (table w)) now (range (items (table w)))
  ∧ ((∀ k p it, holds w k p it → ¬ elapsed now it → lifeSpan it = 0) →
     cleanupInterval (table w') = 0)
  ∧ (∀ k p it, holds w k p it → ¬ elapsed now it → lifeSpan it ≠ 0 →
     0 < lifeSpan it ∧ 0 < cleanupInterval (table w') <= remaining now it)
  ∧ ((∃ k p it, holds w k p it ∧ ¬ elapsed now it ∧ lifeSpan it ≠ 0) →
     ∃ k p it, holds w k p it ∧ ¬ elapsed now it ∧ lifeSpan it ≠ 0
               ∧ cleanupInterval (table w') = remaining now it).
Proof.
  intros Hwf now w'.
  assert (Hdoom : ∀ k p it, holds w k p it →
            (doomed (heap w) now (k, p) = true ↔ elapsed now it)).
  { intros k p it Hh. destruct (Hwf _ _ _ Hh) as [Hl Ha]. destruct Hh as [_ Hh].
    unfold doomed. cbn. rewrite Hh. by apply overdue_true. }
  assert (Hlook : ∀ k p, items (table w') !! k = Some p ↔
            items (table w) !! k = Some p ∧ ∀ it, heap w !! p = Some it → ¬ elapsed now it).
  { intros k p. unfold w'. rewrite expirationCheck_lookup. fold now.
    destruct (items (table w) !! k) as [p'|] eqn:Hk; [|split; [done|by intros [? _]]].
    destruct (heap w !! p') as [it|] eqn:Hh.
    - pose proof (Hdoom k p' it (conj Hk Hh)) as Hd.
      destruct (doomed (heap w) now (k, p')).
      + split; [done|]. intros [[= <-] Hne]. exfalso. apply (Hne it); [done|]. by apply Hd.
      + split.
        * intros [= <-]. split; [done|]. intros it' ? He. simplify_eq.
          apply Hd in He. done.
        * by intros [[= <-] _].
    - unfold doomed. cbn. rewrite Hh. split; [|by intros [? _]].
      intros [= <-]. split; [done|]. intros it' ?. congruence. }
  assert (Htimely : timely (heap w) now (range (items (table w)))).
  { intros [k p] it Hin%elem_of_range Hh. by apply (Hwf k p it). }
  assert (Hcand : ∀ k p it, candidate (heap w) now (k, p) it ∧ (k, p) ∈ range (items (table w))
            ↔ holds w k p it ∧ ¬ elapsed now it ∧ lifeSpan it ≠ 0).
  { intros k p it. unfold candidate. rewrite elem_of_range. cbn. split.
    - intros ((Hh & Hne & Hov) & Hk). split_and!; [done..| |done].
      intros He%(Hdoom k p it); [|done]. unfold doomed in He. cbn in He. rewrite Hh in He. congruence.
    - intros ([Hk Hh] & Hne & Hl). split_and!; try done.
      destruct (overdue now it) eqn:Hov; [|done]. exfalso. apply Hne.
      apply (Hdoom k p it); [done|]. unfold doomed. cbn. by rewrite Hh. }
  pose proof (scan_smallest_spec (heap w) now (range (items (table w))) 0 Htimely ltac:(lia))
    as (Hr0 & Hror & _ & Hrall).
  assert (Hci : cleanupInterval (table w') =
                scan_smallest (heap w) now 0 (range (items (table w)))).
  { unfold w'. by rewrite expirationCheck_eq. }
  split_and!.
  - exact Hlook.
  - intros k p it [Hk Hh] Hl. apply Hlook. split; [done|].
    intros it' ? [Hne _]. simplify_eq.
  - unfold w'. by rewrite expirationCheck_eq.
  - unfold w'. by rewrite expirationCheck_eq.
  - intros Hnone. rewrite Hci. destruct Hror as [->|([k p] & it & Hin & Hc & _)]; [done|].
    destruct (proj1 (Hcand k p it) (conj Hc Hin)) as (Hh & Hne & Hl).
    by destruct (Hl (Hnone _ _ _ Hh Hne)).
  - intros k p it Hh Hne Hl.
    destruct (proj2 (Hcand k p it)) as [Hc Hin]; [done|].
    destruct (Hwf _ _ _ Hh) as [Hmax Ha].
    destruct (candidate_remaining _ _ _ _ Hmax Ha Hc) as (_ & _ & Hpos).
    destruct (Hrall _ _ Hin Hc) as [Hle Hnz]. rewrite Hci. lia.
  - intros (k & p & it & Hh & Hne & Hl). rewrite Hci.
    destruct (proj2 (Hcand k p it)) as [Hc Hin]; [done|].
    destruct (Hrall _ _ Hin Hc) as [_ Hnz].
    destruct Hror as [?|([k' p'] & it' & Hin' & Hc' & Heq)]; [done|].
    exists k', p', it'. destruct (proj1 (Hcand k' p' it') (conj Hc' Hin')) as (? & ? & ?).
    done.
Qed.


(** *** What a scan leaves alone *)

Lemma deleteInternal_frame k w :
  let w' := (deleteInternal k w).1 in
  heap w' = heap w ∧ clock w' = clock w
  ∧ (∃ m, table w' = set_items m (table w))
  ∧ ∃ rest, events w' = events w ++ rest ∧ Forall (λ ev, ¬ is_added ev) rest.
Proof.
  destruct (items (table w) !! k) as [r|] eqn:Hk.
  - rewrite (deleteInternal_Some _ _ _ Hk). cbn. split_and!; [done|done|eexists; reflexivity|].
    eexists. split; [done|]. unfold delete_events. apply Forall_app. split.
    + apply Forall_fmap, Forall_true. intros f Hf. exact Hf.
    + destruct (heap w !! r); [|done]. apply Forall_fmap, Forall_true. intros f Hf. exact Hf.
  - rewrite (deleteInternal_None _ _ Hk). cbn. split_and!; [done|done| |].
    + exists (items (table w)). by destruct (table w).
    + exists []. by rewrite app_nil_r.
Qed.

Lemma scan_frame now es : ∀ st : World (K:=K) (V:=V) * time.Duration,
  let w' := (foldl (expirationCheck_iter now) st es).1 in
  heap w' = heap st.1 ∧ clock w' = clock st.1
  ∧ (∃ m, table w' = set_items m (table st.1))
  ∧ ∃ rest, events w' = events st.1 ++ rest ∧ Forall (λ ev, ¬ is_added ev) rest.
Proof.
  induction es as [|e es IH]; intros [w s]; cbn [foldl].
  - cbn. split_and!; [done|done| |].
    + exists (items (table w)). by destruct (table w).
    + exists []. by rewrite app_nil_r.
  - rewrite expirationCheck_iter_doomed. destruct (doomed (heap w) now e).
    + destruct (deleteInternal_frame e.1 w) as (Hh & Hc & [m Hm] & rest & He & Hr).
      destruct (IH ((deleteInternal e.1 w).1, s)) as (Hh' & Hc' & [m' Hm'] & rest' & He' & Hr').
      cbn zeta. cbn [fst] in *. rewrite Hh', Hc', Hm', He', Hh, Hc, Hm, He.
      split_and!; [done|done|by exists m'|].
      exists (rest ++ rest'). rewrite app_assoc. split; [done|]. by apply Forall_app.
    + apply (IH (w, smallest_step (heap w) now s e)).
Qed.

Lemma expirationCheck_frame w :
  let w' := expirationCheck range w in
  heap w' = heap w ∧ clock w' = clock w
  ∧ name (table w') = name (table w)
  ∧ logger (table w') = logger (table w)
  ∧ loadData (table w') = loadData (table w)
  ∧ addedItem (table w') = addedItem (table w)
  ∧ aboutToDeleteItem (table w') = aboutToDeleteItem (table w)
  ∧ ∃ rest, events w' = events w ++ rest ∧ Forall (λ ev, ¬ is_added ev) rest.
Proof.
  unfold expirationCheck. cbv zeta.
  match goal with |- context [foldl (expirationCheck_iter ?now) ?st ?es] =>
    pose proof (scan_frame now es st) as Hf;
    revert Hf; generalize (foldl (expirationCheck_iter now) st es) end.
  intros [w1 s1] Hf. cbn in Hf. destruct Hf as (Hh & Hc & [m Hm] & rest & He & Hr).
  destruct (0 <? s1); cbn; rewrite Hh, Hc, Hm, He; cbn; split_and!; try done; by exists rest.
Qed.


(** *** New items and the add protocol *)

Lemma NewCacheItem_eq k l d w :
  NewCacheItem k l d w =
    (length (heap w),
     set_heap (heap w ++ [ {| key := k; data := d; lifeSpan := l;
                              createdOn := clock w; accessedOn := clock w;
                              accessCount := 0; aboutToExpire := [] |} ]) w).
Proof. done. Qed.

Lemma lookup_snoc h it : (h ++ [it]) !! length h = Some it.
Proof. by rewrite lookup_app_r, Nat.sub_diag by lia. Qed.

Lemma pristine_new now k l d :
  pristine now k l d {| key := k; data := d; lifeSpan := l; createdOn := now;
                        accessedOn := now; accessCount := 0; aboutToExpire := [] |}.
Proof. by repeat split. Qed.

Lemma Sub_later t (n : N) : time.Sub (t + Z.of_N n) t = Z.min max_int64 (Z.of_N n).
Proof. unfold time.Sub, min_int64, max_int64. lia. Qed.

(** A new item, [late] after it was made: its lifespan is over or not. *)
Lemma pristine_alive now k l d it (late : N) :
  pristine now k l d it → Z.of_N late < l → overdue (now + Z.of_N late) it = false.
Proof.
  intros (_ & _ & Hl & _ & Ha & _) Hlate. unfold overdue.
  rewrite Hl, Ha, Sub_later. apply andb_false_iff. right. apply Z.leb_gt. lia.
Qed.

Lemma pristine_overdue now k l d it (late : N) :
  pristine now k l d it → 0 < l <= Z.of_N late → l <= max_int64 →
  overdue (now + Z.of_N late) it = true.
Proof.
  intros (_ & _ & Hl & _ & Ha & _) Hlate Hmax. unfold overdue.
  rewrite Hl, Ha, Sub_later. apply andb_true_iff. split.
  - apply negb_true_iff, Z.eqb_neq. lia.
  - apply Z.leb_le. lia.
Qed.

Lemma addInternal_cases item it w :
  heap w !! item = Some it →
  let expDur := cleanupInterval (table w) in
  (0 < lifeSpan it ∧ (expDur = 0 ∨ lifeSpan it < expDur) →
   addInternal range item w = expirationCheck range (stored item it w))
  ∧ (¬ (0 < lifeSpan it ∧ (expDur = 0 ∨ lifeSpan it < expDur)) →
     addInternal range item w = stored item it w).
Proof.
  intros Hh expDur. unfold addInternal, stored. rewrite Hh. cbn. fold expDur.
  destruct (Z.ltb_spec 0 (lifeSpan it)), (Z.eqb_spec expDur 0),
    (Z.ltb_spec (lifeSpan it) expDur); cbn; split; intros; first [done|lia].
Qed.

(** After the add protocol the item is under its key, unless the scheduler
    ran and found its lifespan over already. *)
Lemma addInternal_lookup item it w :
  heap w !! item = Some it →
  let expDur := cleanupInterval (table w) in
  let trigger := 0 < lifeSpan it ∧ (expDur = 0 ∨ lifeSpan it < expDur) in
  (¬ trigger ∨ overdue (clock w) it = false →
   items (table (addInternal range item w)) !! key it = Some item)
  ∧ (trigger → overdue (clock w) it = true →
     items (table (addInternal range item w)) !! key it = None).
Proof.
  intros Hh expDur trigger. destruct (addInternal_cases item it w Hh) as [Hyes Hno].
  fold expDur in Hyes, Hno. fold trigger in Hyes, Hno.
  assert (Hd : doomed (heap (stored item it w)) (clock (stored item it w)) (key it, item)
               = overdue (clock w) it) by (unfold doomed; cbn; by rewrite Hh).
  split.
  - intros Hc. destruct (decide trigger) as [Ht|Ht].
    + destruct Hc as [Hc|Hc]; [done|].
      rewrite (Hyes Ht), expirationCheck_lookup. cbn [stored call table items set_table set_items].
      rewrite lookup_insert_eq. by rewrite Hd, Hc.
    + rewrite (Hno Ht). cbn. apply lookup_insert_eq.
  - intros Ht Hov.
    rewrite (Hyes Ht), expirationCheck_lookup. cbn [stored call table items set_table set_items].
    rewrite lookup_insert_eq. by rewrite Hd, Hov.
Qed.

Lemma addInternal_heap item w : heap (addInternal range item w) = heap w.
Proof.
  destruct (heap w !! item) as [it|] eqn:Hh; [|unfold addInternal; by rewrite Hh].
  destruct (addInternal_cases item it w Hh) as [Hyes Hno].
  destruct (decide (0 < lifeSpan it ∧
    (cleanupInterval (table w) = 0 ∨ lifeSpan it < cleanupInterval (table w)))) as [Hc|Hc].
  - rewrite (Hyes Hc). by destruct (expirationCheck_frame (stored item it w)) as (-> & _).
  - by rewrite (Hno Hc).
Qed.

Lemma Add_eq k l d late w :
  Add range k l d late w =
    (addInternal range (NewCacheItem k l d w).1
       (set_clock (clock w + Z.of_N late) (NewCacheItem k l d w).2),
     (NewCacheItem k l d w).1).
Proof. done. Qed.

(** What [Add] leaves under the key: the new item, or nothing when the
    scheduler ran and the lifespan was over within the call. *)
Lemma Add_lookup k l d late w :
  let r := Add range k l d late w in
  let expDur := cleanupInterval (table w) in
  r.2 = length (heap w)
  ∧ (l <= 0 ∨ Z.of_N late < l ∨ (expDur ≠ 0 ∧ expDur <= l) →
     items (table r.1) !! k = Some r.2)
  ∧ (0 < l <= Z.of_N late → l <= max_int64 → expDur = 0 ∨ l < expDur →
     items (table r.1) !! k = None)
  ∧ (items (table r.1) !! k = Some r.2 ∨ items (table r.1) !! k = None)
  ∧ ∃ it, heap r.1 = heap w ++ [it] ∧ pristine (clock w) k l d it.
Proof.
  rewrite Add_eq, NewCacheItem_eq. cbn [fst snd]. split; [done|].
  set (it := {| key := k; data := d; lifeSpan := l; createdOn := clock w;
                accessedOn := clock w; accessCount := 0; aboutToExpire := [] |}).
  set (w1 := set_clock (clock w + Z.of_N late) (set_heap (heap w ++ [it]) w)).
  assert (Hh : heap w1 !! length (heap w) = Some it) by apply lookup_snoc.
  destruct (addInternal_lookup (length (heap w)) it w1 Hh) as [Hin Hout].
  split_and!.
  - intros Hc. apply Hin. destruct Hc as [Hc|[Hc|Hc]].
    + left. cbn. lia.
    + right. apply (pristine_alive (clock w) k l d); [apply pristine_new|done].
    + left. cbn. lia.
  - intros Hl Hmax Hc. apply Hout; [cbn; lia|].
    apply (pristine_overdue (clock w) k l d); [apply pristine_new|done|done].
  - destruct (overdue (clock w1) it) eqn:Hov; [|left; apply Hin; by right].
    destruct (decide (0 < lifeSpan it ∧ (cleanupInterval (table w1) = 0
                ∨ lifeSpan it < cleanupInterval (table w1)))) as [Ht|Ht].
    + right. by apply Hout.
    + left. apply Hin. by left.
  - exists it. rewrite addInternal_heap. split; [done|apply pristine_new].
Qed.

(** C10.  The item made by [NewCacheItem] has access count 0, was last
    accessed when it was created, at the time of the call, and has no expire
    callbacks; so has the item that [Add] makes and returns, and the item
    that [NotFoundAdd] makes for a key that was absent, and the table holds
    that item after the call if its lifespan is not positive or was not
    over when the call read the clock again.  The deadline of such an item
    is its creation time plus its lifespan. *)
Theorem NewCacheItem_pristine k l d late w :
  (let r := NewCacheItem k l d w in
   ∃ it, heap r.2 !! r.1 = Some it ∧ pristine (clock w) k l d it
         ∧ accessCount it = 0 ∧ accessedOn it = createdOn it ∧ aboutToExpire it = [])
  ∧ (let r := Add range k l d late w in
     ∃ it, heap r.1 !! r.2 = Some it
           ∧ pristine (clock w) k l d it
           ∧ accessCount it = 0 ∧ accessedOn it = createdOn it ∧ aboutToExpire it = []
           ∧ (l <= 0 ∨ Z.of_N late < l → items (table r.1) !! k = Some r.2))
  ∧ (items (table w) !! k = None →
     let r := NotFoundAdd range k l d late w in
     ∃ item it, heap r.1 !! item = Some it
           ∧ pristine (clock w) k l d it
           ∧ accessCount it = 0 ∧ accessedOn it = createdOn it ∧ aboutToExpire it = []
           ∧ (l <= 0 ∨ Z.of_N late < l → items (table r.1) !! k = Some item))
  ∧ (∀ it now, pristine (clock w) k l d it → l <= max_int64 → clock w <= now →
       (overdue now it = true ↔ l ≠ 0 ∧ createdOn it + l <= now)).
Proof.
  assert (Hp : ∀ it, pristine (clock w) k l d it →
            accessCount it = 0 ∧ accessedOn it = createdOn it ∧ aboutToExpire it = []).
  { intros it (_ & _ & _ & -> & -> & -> & ->). done. }
  assert (HAdd : let r := Add range k l d late w in
     ∃ it, heap r.1 !! r.2 = Some it ∧ pristine (clock w) k l d it
           ∧ (l <= 0 ∨ Z.of_N late < l → items (table r.1) !! k = Some r.2)).
  { destruct (Add_lookup k l d late w) as (Hr & Hk & _ & _ & it & Hh & Hpr). cbn zeta.
    exists it. split_and!; [|done|].
    - rewrite Hr, Hh. apply lookup_snoc.
    - intros Hc. apply Hk. tauto. }
  split_and!.
  - rewrite NewCacheItem_eq. cbn. eexists. split; [apply lookup_snoc|].
    split; [apply pristine_new|done].
  - destruct HAdd as (it & ? & ? & ?). exists it. split_and!; try done; by apply Hp.
  - intros Hk. destruct HAdd as (it & ? & ? & ?). unfold NotFoundAdd. rewrite Hk.
    rewrite Add_eq in *. cbn in *. exists (length (heap w)), it.
    split_and!; try done; by apply Hp.
  - intros it now Hpr Hmax Hnow. destruct Hpr as (_ & _ & Hl & Hc & Ha & _).
    rewrite overdue_true by lia. rewrite Hl, Hc, Ha. split; intros [? ?]; split; lia.
Qed.

(** C7.  In the add protocol, once the item is stored and the added-item
    callbacks have been called, the expiration scheduler runs if the item's
    lifespan is positive and the cleanup interval read before is 0 or longer
    than that lifespan, and only then: otherwise the protocol ends with the
    item stored, the timer and the cleanup interval as they were. *)
Theorem addInternal_trigger item it w :
  heap w !! item = Some it →
  let expDur := cleanupInterval (table w) in
  let trigger := 0 < lifeSpan it ∧ (expDur = 0 ∨ lifeSpan it < expDur) in
  events (stored item it w) =
    events w ++ fmap (λ f, AddedItemCall f item) (addedItem (table w))
  ∧ items (table (stored item it w)) = <[key it := item]> (items (table w))
  ∧ (trigger → addInternal range item w = expirationCheck range (stored item it w))
  ∧ (¬ trigger →
     addInternal range item w = stored item it w
     ∧ cleanupInterval (table (addInternal range item w)) = expDur
     ∧ cleanupTimer (table (addInternal range item w)) = cleanupTimer (table w)).
Proof.
  intros Hh expDur trigger. destruct (addInternal_cases item it w Hh) as [Hyes Hno].
  split_and!; [done|done|exact Hyes|].
  intros Hc. by rewrite (Hno Hc).
Qed.

(** *** Flush *)

(** C6.  [Flush] leaves an empty item map (so [Count] is 0), a cleanup
    interval of 0 and a stopped timer, which will not fire; it calls no
    callback, and the name, the loader, the logger, both callback lists, the
    items themselves and the clock are as before. *)
Theorem Flush_spec w :
  let w' := Flush w in
  items (table w') = ∅
  ∧ Count w' = 0%nat
  ∧ cleanupInterval (table w') = 0
  ∧ cleanupTimer (table w') = time.Stop <$> cleanupTimer (table w)
  ∧ (∀ tm, cleanupTimer (table w') = Some tm → time.active tm = false)
  ∧ timerFires range w' = w'
  ∧ events w' = events w
  ∧ name (table w') = name (table w)
  ∧ loadData (table w') = loadData (table w)
  ∧ logger (table w') = logger (table w)
  ∧ addedItem (table w') = addedItem (table w)
  ∧ aboutToDeleteItem (table w') = aboutToDeleteItem (table w)
  ∧ heap w' = heap w
  ∧ clock w' = clock w.
Proof.
  cbn. split_and!; try done.
  - intros tm. by destruct (cleanupTimer (table w)); intros [= <-].
  - unfold timerFires. cbn. by destruct (cleanupTimer (table w)).
Qed.

(** *** Errors *)

(** C5.  [Delete] of an absent key fails with [ErrKeyNotFound] and changes
    nothing; [Value] of an absent key fails with [ErrKeyNotFound] when no
    loader is set, and with [ErrKeyNotFoundOrLoadable] when the loader
    returns no item, the key staying absent.  These are the only failures:
    [Delete] fails only on an absent key and only with [ErrKeyNotFound], and
    each error of [Value] comes from its case alone. *)
Theorem errors_spec k args late1 late2 w :
  (items (table w) !! k = None → Delete k w = (w, Err ErrKeyNotFound))
  ∧ (items (table w) !! k = None → loadData (table w) = None →
     Value range k args late1 late2 w = (w, Err ErrKeyNotFound))
  ∧ (∀ load, items (table w) !! k = None → loadData (table w) = Some load →
     load k args = None →
     Value range k args late1 late2 w = (w, Err ErrKeyNotFoundOrLoadable)
     ∧ items (table (Value range k args late1 late2 w).1) !! k = None)
  ∧ (∀ err, (Delete k w).2 = Err err → err = ErrKeyNotFound ∧ items (table w) !! k = None)
  ∧ ((Value range k args late1 late2 w).2 = Err ErrKeyNotFound →
     items (table w) !! k = None ∧ loadData (table w) = None)
  ∧ ((Value range k args late1 late2 w).2 = Err ErrKeyNotFoundOrLoadable →
     items (table w) !! k = None
     ∧ ∃ load, loadData (table w) = Some load ∧ load k args = None).
Proof.
  unfold Delete, deleteInternal, Value.
  destruct (items (table w) !! k) as [r|] eqn:Hk; cbn.
  - split_and!; done.
  - destruct (loadData (table w)) as [load|] eqn:Hl; cbn.
    + destruct (load k args) as [[[k' l'] d']|] eqn:Hload; cbn.
      * rewrite lookup_snoc. cbn. split_and!; try done.
        -- intros load' _ [= <-]. congruence.
        -- by intros e [= <-].
      * split_and!; try done.
        -- by intros e [= <-].
        -- intros _. split; [done|]. by exists load.
    + split_and!; try done. by intros e [= <-].
Qed.


(** *** NotFoundAdd and Value *)

(** C4, amended.  [NotFoundAdd] on a key that is present returns false and
    leaves the world as it was: the item, its value and timestamps, no
    callback called.  On an absent key it returns true after running the add
    protocol on a new item.  The table then holds that item at the key,
    where [Exists] finds it and [Value] returns it, unless the protocol ran
    the scheduler and the lifespan of the item, positive, was over by then:
    in that case the key is absent again when the call returns. *)
Theorem NotFoundAdd_spec k l d late w :
  (∀ p, items (table w) !! k = Some p → NotFoundAdd range k l d late w = (w, false))
  ∧ (items (table w) !! k = None →
     let r := NotFoundAdd range k l d late w in
     let new := NewCacheItem k l d w in
     let expDur := cleanupInterval (table w) in
     r.2 = true
     ∧ r.1 = addInternal range new.1 (set_clock (clock w + Z.of_N late) new.2)
     ∧ (∃ it, heap r.1 !! new.1 = Some it ∧ pristine (clock w) k l d it)
     ∧ (l <= 0 ∨ Z.of_N late < l ∨ (expDur ≠ 0 ∧ expDur <= l) →
        items (table r.1) !! k = Some new.1
        ∧ Exists k r.1 = true
        ∧ ∀ late1 late2, (Value range k [] late1 late2 r.1).2 = Ok new.1)
     ∧ (0 < l <= Z.of_N late → l <= max_int64 → expDur = 0 ∨ l < expDur →
        items (table r.1) !! k = None ∧ Exists k r.1 = false)).
Proof.
  split.
  - intros p Hk. unfold NotFoundAdd. by rewrite Hk.
  - intros Hk. unfold NotFoundAdd. rewrite Hk.
    destruct (Add_lookup k l d late w) as (Hr & Hin & Hout & _ & it & Hh & Hp).
    rewrite Add_eq in Hr, Hin, Hout, Hh. cbn [fst snd] in Hr, Hin, Hout, Hh.
    destruct (NewCacheItem k l d w) as [item w1] eqn:Hnew. cbn [fst snd] in *.
    assert (Hc : clock w1 = clock w).
    { rewrite NewCacheItem_eq in Hnew. by injection Hnew as _ <-. }
    rewrite Hc. split_and!; [done|done| | |].
    + exists it. split; [|done]. rewrite Hh, Hr. apply lookup_snoc.
    + intros Hcase. specialize (Hin Hcase). split_and!; [done| |].
      * unfold Exists. rewrite Hin. by apply bool_decide_eq_true.
      * intros late1 late2. unfold Value. by rewrite Hin.
    + intros Hl Hmax Hcase. specialize (Hout Hl Hmax Hcase). split; [done|].
      unfold Exists. rewrite Hout. apply bool_decide_eq_false. by intros [? ?].
Qed.

(** C1 (what the code does).  On a miss with a loader that returns an item,
    [Value] has [Add] make a new item for the key and returns the item of
    the loader: the table holds the item at the next address, or nothing
    when the lifespan was over as [Add] ran the scheduler, and never the
    returned item. *)
Theorem Value_returns_loaded_item k args late1 late2 load k' l' d' w :
  items (table w) !! k = None →
  loadData (table w) = Some load →
  load k args = Some (k', l', d') →
  let r := Value range k args late1 late2 w in
  let loaded := length (heap w) in
  r.2 = Ok loaded
  ∧ (l' <= 0 ∨ Z.of_N late2 < l' → items (table r.1) !! k = Some (S loaded))
  ∧ items (table r.1) !! k ≠ Some loaded
  ∧ (items (table r.1) !! k = Some (S loaded) ∨ items (table r.1) !! k = None)
  ∧ (∃ it, heap r.1 !! loaded = Some it ∧ pristine (clock w) k' l' d' it)
  ∧ (∃ it, heap r.1 !! S loaded = Some it
           ∧ pristine (clock w + Z.of_N late1) k l' d' it).
Proof.
  intros Hk Hl Hload. unfold Value. rewrite Hk, Hl, Hload, NewCacheItem_eq.
  cbn [heap set_heap]. rewrite lookup_snoc. cbn [fst snd lifeSpan data].
  match goal with |- context [Add range k l' d' late2 ?w1] =>
    destruct (Add_lookup k l' d' late2 w1) as (Hr & Hin & _ & Hor & it & Hh & Hp) end.
  cbn [heap set_heap set_clock clock] in *.
  assert (Hlen : ∀ x : CacheItem (K:=K) (V:=V),
            length (heap w ++ [x]) = S (length (heap w))).
  { intros x. rewrite length_app. cbn. lia. }
  rewrite Hlen in Hr. rewrite Hr in Hin, Hor. cbv zeta. cbn [fst snd].
  split_and!; [done| | |done| |].
  - intros Hc. apply Hin. tauto.
  - intros Heq. destruct Hor as [Hor|Hor]; rewrite Hor in Heq; [|done].
    injection Heq as Heq. lia.
  - eexists. rewrite Hh. split; [|apply pristine_new].
    rewrite lookup_app_l by (rewrite Hlen; lia). apply lookup_snoc.
  - exists it. rewrite Hh. split; [|done].
    rewrite lookup_app_r by (rewrite Hlen; lia). by rewrite Hlen, Nat.sub_diag.
Qed.


(** *** Callback lists *)

Lemma SetAddedItemCallback_eq f w :
  SetAddedItemCallback f w = set_table (set_addedItem [f] (table w)) w.
Proof.
  unfold SetAddedItemCallback.
  destruct (addedItem (table w)) eqn:E; cbn; [by rewrite E|done].
Qed.

Lemma SetAboutToDeleteItemCallback_eq f w :
  SetAboutToDeleteItemCallback f w = set_table (set_aboutToDeleteItem [f] (table w)) w.
Proof.
  unfold SetAboutToDeleteItemCallback.
  destruct (aboutToDeleteItem (table w)) eqn:E; cbn; [by rewrite E|done].
Qed.

Lemma AddAddedItemCallbacks_eq fs : ∀ w,
  foldl (λ w g, AddAddedItemCallback g w) w fs =
    set_table (set_addedItem (addedItem (table w) ++ fs) (table w)) w.
Proof.
  induction fs as [|g fs IH]; intros w; cbn [foldl].
  - rewrite app_nil_r. by destruct w as [? [] ? ?].
  - rewrite IH. cbn. by rewrite <- app_assoc.
Qed.

Lemma AddAboutToDeleteItemCallbacks_eq fs : ∀ w,
  foldl (λ w g, AddAboutToDeleteItemCallback g w) w fs =
    set_table (set_aboutToDeleteItem (aboutToDeleteItem (table w) ++ fs) (table w)) w.
Proof.
  induction fs as [|g fs IH]; intros w; cbn [foldl].
  - rewrite app_nil_r. by destruct w as [? [] ? ?].
  - rewrite IH. cbn. by rewrite <- app_assoc.
Qed.

Lemma SetAboutToExpireCallback_eq item f it w :
  heap w !! item = Some it →
  SetAboutToExpireCallback item f w =
    set_heap (alter (set_aboutToExpire [f]) item (heap w)) w.
Proof.
  intros Hh. unfold SetAboutToExpireCallback. rewrite Hh.
  destruct (aboutToExpire it) as [|g gs] eqn:Hcb;
    unfold RemoveAboutToExpireCallback, set_heap; cbn.
  - f_equal. apply list_alter_ext; [|done]. intros it' Hit'.
    assert (it' = it) as -> by congruence. by rewrite Hcb.
  - f_equal. rewrite list_alter_alter_eq. apply list_alter_ext; [|done]. by intros.
Qed.

Lemma AddAboutToExpireCallbacks_eq item fs : ∀ w,
  foldl (λ w g, AddAboutToExpireCallback item g w) w fs =
    set_heap (alter (λ it, set_aboutToExpire (aboutToExpire it ++ fs) it) item (heap w)) w.
Proof.
  induction fs as [|g fs IH]; intros w; cbn [foldl].
  - rewrite list_alter_id; [by destruct w|]. intros [] . cbn. by rewrite app_nil_r.
  - rewrite IH. cbn. unfold set_heap. cbn. f_equal.
    rewrite list_alter_alter_eq. apply list_alter_ext; [|done].
    intros it _. cbn. unfold set_aboutToExpire. cbn. by rewrite <- app_assoc.
Qed.

Lemma Add_events k l d late w :
  let r := Add range k l d late w in
  ∃ rest, events r.1 =
            events w ++ fmap (λ f, AddedItemCall f r.2) (addedItem (table w)) ++ rest
          ∧ Forall (λ ev, ¬ is_added ev) rest.
Proof.
  rewrite Add_eq, NewCacheItem_eq. cbn [fst snd].
  match goal with |- context [addInternal range ?item (set_clock _ (set_heap (_ ++ [?it]) _))] =>
    set (p := item); set (x := it) end.
  set (w1 := set_clock (clock w + Z.of_N late) (set_heap (heap w ++ [x]) w)).
  assert (Hh : heap w1 !! p = Some x) by apply lookup_snoc.
  destruct (addInternal_cases p x w1 Hh) as [Hyes Hno].
  destruct (decide (0 < lifeSpan x ∧
    (cleanupInterval (table w1) = 0 ∨ lifeSpan x < cleanupInterval (table w1)))) as [Hc|Hc].
  - rewrite (Hyes Hc).
    destruct (expirationCheck_frame (stored p x w1)) as (_ & _ & _ & _ & _ & _ & _ & rest & He & Hr).
    exists rest. rewrite He. cbn. by rewrite <- app_assoc.
  - rewrite (Hno Hc). exists []. cbn. by rewrite app_nil_r.
Qed.

(** C8.  The set operations leave the one-element list of the new callback,
    whatever the list was; the add operations append to the list.  After a
    set and then adds, [Add] calls the added-item callbacks, and [Delete] the
    about-to-delete callbacks of the table and the expire callbacks of the
    item, each list in the order of registration, with the item (the key for
    expire callbacks), and calls no other callback of that kind. *)
Theorem callback_lists f fs w :
  (addedItem (table (SetAddedItemCallback f w)) = [f]
   ∧ aboutToDeleteItem (table (SetAboutToDeleteItemCallback f w)) = [f]
   ∧ ∀ p it, heap w !! p = Some it →
       aboutToExpire <$> heap (SetAboutToExpireCallback p f w) !! p = Some [f])
  ∧ (addedItem (table (AddAddedItemCallback f w)) = addedItem (table w) ++ [f]
     ∧ aboutToDeleteItem (table (AddAboutToDeleteItemCallback f w)) =
         aboutToDeleteItem (table w) ++ [f]
     ∧ ∀ p it, heap w !! p = Some it →
         aboutToExpire <$> heap (AddAboutToExpireCallback p f w) !! p =
           Some (aboutToExpire it ++ [f]))
  ∧ (let wa := foldl (λ w g, AddAddedItemCallback g w) (SetAddedItemCallback f w) fs in
     addedItem (table wa) = f :: fs
     ∧ ∀ k l d late, let r := Add range k l d late wa in
         ∃ rest, events r.1 = events w ++ fmap (λ g, AddedItemCall g r.2) (f :: fs) ++ rest
                 ∧ Forall (λ ev, ¬ is_added ev) rest)
  ∧ (let wd := foldl (λ w g, AddAboutToDeleteItemCallback g w)
                 (SetAboutToDeleteItemCallback f w) fs in
     aboutToDeleteItem (table wd) = f :: fs
     ∧ ∀ k p it, holds w k p it →
         events (Delete k wd).1 =
           events w ++ fmap (λ g, AboutToDeleteItemCall g p) (f :: fs)
                    ++ fmap (λ g, AboutToExpireCall g k) (aboutToExpire it))
  ∧ (∀ k p it, holds w k p it →
       let wi := foldl (λ w g, AddAboutToExpireCallback p g w)
                   (SetAboutToExpireCallback p f w) fs in
       aboutToExpire <$> heap wi !! p = Some (f :: fs)
       ∧ events (Delete k wi).1 =
           events w ++ fmap (λ g, AboutToDeleteItemCall g p) (aboutToDeleteItem (table w))
                    ++ fmap (λ g, AboutToExpireCall g k) (f :: fs)).
Proof.
  cbv zeta. split_and!.
  - by rewrite SetAddedItemCallback_eq.
  - by rewrite SetAboutToDeleteItemCallback_eq.
  - intros p it Hh. rewrite (SetAboutToExpireCallback_eq _ _ _ _ Hh). cbn.
    by rewrite list_lookup_alter_eq, Hh.
  - done.
  - done.
  - intros p it Hh. cbn. by rewrite list_lookup_alter_eq, Hh.
  - by rewrite AddAddedItemCallbacks_eq, SetAddedItemCallback_eq.
  - intros k l d late. rewrite AddAddedItemCallbacks_eq, SetAddedItemCallback_eq.
    match goal with |- context [Add range k l d late ?wa] =>
      destruct (Add_events k l d late wa) as (rest & He & Hr) end.
    exists rest. split; [|done]. cbn zeta in He. by rewrite He.
  - by rewrite AddAboutToDeleteItemCallbacks_eq, SetAboutToDeleteItemCallback_eq.
  - intros k p it [Hk Hh]. rewrite AddAboutToDeleteItemCallbacks_eq, SetAboutToDeleteItemCallback_eq.
    unfold Delete. erewrite deleteInternal_Some by exact Hk.
    cbn. unfold delete_events. by rewrite Hh.
  - intros k p it [Hk Hh]. rewrite AddAboutToExpireCallbacks_eq.
    rewrite (SetAboutToExpireCallback_eq _ _ _ _ Hh). split.
    + cbn. by rewrite !list_lookup_alter_eq, Hh.
    + unfold Delete. erewrite deleteInternal_Some by exact Hk.
      cbn. unfold delete_events. by rewrite !list_lookup_alter_eq, Hh.
Qed.


(** *** MostAccessed *)

Variable sort_Sort : list (CacheItemPair (K:=K)) → list (CacheItemPair (K:=K)).
Hypothesis sort_Sort_perm : ∀ ps, sort_Sort ps ≡ₚ ps.
Hypothesis sort_Sort_sorted :
  ∀ ps, Sorted (λ x y, AccessCount y <= AccessCount x) (sort_Sort ps).

#[local] Instance desc_dec : RelDecision desc := λ x y, decide (y <= x).

#[local] Instance desc_trans : Transitive desc.
Proof. unfold desc. intros x y z ??. lia. Qed.

#[local] Instance desc_antisymm : AntiSymm (=) desc.
Proof. unfold desc. intros x y ??. lia. Qed.

Lemma mostAccessed_loop_eq m count (ps : list (CacheItemPair (K:=K))) : ∀ c acc,
  mostAccessed_loop m count c acc ps =
    acc ++ omap (λ v, m !! Key v) (take (Z.to_nat (count - c)) ps).
Proof.
  induction ps as [|v ps IH]; intros c acc; cbn.
  - by rewrite take_nil, app_nil_r.
  - destruct (Z.leb_spec count c) as [Hge|Hlt].
    + replace (Z.to_nat (count - c)) with 0%nat by lia. by rewrite app_nil_r.
    + replace (Z.to_nat (count - c)) with (S (Z.to_nat (count - (c + 1)))) by lia.
      rewrite IH. cbn. destruct (m !! Key v); cbn; [|done].
      by rewrite <- app_assoc.
Qed.

Lemma Sorted_take (l : list Z) n : Sorted desc l → Sorted desc (take n l).
Proof.
  intros Hs%(Sorted_StronglySorted desc). apply StronglySorted_Sorted.
  rewrite <- (take_drop n l) in Hs. by apply StronglySorted_app_1_l in Hs.
Qed.

Lemma resolve_counts w (ps : list (CacheItemPair (K:=K))) :
  (∀ v, v ∈ ps → ∃ q, items (table w) !! Key v = Some q ∧ countOf w q = AccessCount v) →
  fmap (countOf w) (omap (λ v, items (table w) !! Key v) ps) = fmap AccessCount ps
  ∧ ∀ q, q ∈ omap (λ v, items (table w) !! Key v) ps → ∃ k, items (table w) !! k = Some q.
Proof.
  induction ps as [|v ps IH]; intros Hall; cbn.
  - split; [done|]. by intros ? ?%elem_of_nil.
  - destruct (Hall v) as (q & Hq & Hc); [by left|].
    destruct IH as [IH1 IH2]; [intros; apply Hall; by right|].
    rewrite Hq. cbn. rewrite Hc, IH1. split; [done|].
    intros q' [->|Hin]%elem_of_cons; [by exists (Key v)|by apply IH2].
Qed.

(** C3.  [MostAccessed count] returns at most [count] items of the table,
    their access counts in descending order: the first [count] of the counts
    of the table sorted downwards.  With counts 5, 1, 9 and 3 in the table,
    [MostAccessed 2] returns an item of count 9, then one of count 5. *)
Theorem MostAccessed_spec count w :
  let res := MostAccessed range sort_Sort count w in
  (length res <= Z.to_nat count)%nat
  ∧ Sorted desc (fmap (countOf w) res)
  ∧ (∀ p, p ∈ res → ∃ k, items (table w) !! k = Some p)
  ∧ (∀ all, Sorted desc all → all ≡ₚ counts w →
       fmap (countOf w) res = take (Z.to_nat count) all)
  ∧ (counts w ≡ₚ [5; 1; 9; 3] → count = 2 → fmap (countOf w) res = [9; 5]).
Proof.
  intros res. subst res. unfold MostAccessed. rewrite mostAccessed_loop_eq, Z.sub_0_r.
  cbn [app].
  set (mk := λ e : K * nat, {| Key := e.1; AccessCount := from_option accessCount 0 (heap w !! e.2) |}).
  set (ps := sort_Sort (fmap mk (range (items (table w))))).
  assert (Hps : ∀ v, v ∈ ps →
            ∃ q, items (table w) !! Key v = Some q ∧ countOf w q = AccessCount v).
  { intros v Hv. unfold ps in Hv. rewrite sort_Sort_perm in Hv.
    apply list_elem_of_fmap in Hv as ([k q] & -> & Hin). apply elem_of_range in Hin.
    by exists q. }
  assert (Hres := resolve_counts w (take (Z.to_nat count) ps)).
  destruct Hres as [Hmap Hin].
  { intros v (i & Hi & _)%elem_of_take. apply Hps. by eapply list_elem_of_lookup_2. }
  assert (Hsorted : Sorted desc (fmap AccessCount ps)).
  { eapply (Sorted_fmap _ _ desc); [|apply sort_Sort_sorted]. by intros. }
  assert (Hperm : fmap AccessCount ps ≡ₚ counts w).
  { unfold ps, counts. rewrite sort_Sort_perm, <- (range_perm (items (table w))).
    rewrite <- !list_fmap_compose. done. }
  assert (Hall : ∀ all, Sorted desc all → all ≡ₚ counts w →
            fmap (countOf w) (omap (λ v, items (table w) !! Key v) (take (Z.to_nat count) ps))
            = take (Z.to_nat count) all).
  { intros all Hs Hp. rewrite Hmap, fmap_take. f_equal.
    apply (Sorted_unique desc); [done|done|by rewrite Hperm]. }
  split_and!.
  - rewrite <- (length_fmap (countOf w)), Hmap, length_fmap, length_take. lia.
  - rewrite Hmap, fmap_take. by apply Sorted_take.
  - exact Hin.
  - exact Hall.
  - intros Hc ->. rewrite (Hall [9; 5; 3; 1]); [done| |].
    + repeat constructor; unfold desc; lia.
    + rewrite Hc. rewrite <- (merge_sort_Permutation desc [5; 1; 9; 3]). done.
Qed.


(** *** Access counts and times over a run *)

Lemma follows_same w w' : heap w' = heap w → clock w <= clock w' → follows w w'.
Proof.
  intros Hh Hc. split_and!; [done| |].
  - intros p it Hp. exists it. rewrite Hh. split; [done|by left].
  - intros p it' Hp Hn. rewrite Hh in Hp. congruence.
Qed.

Lemma follows_alter w w' item (g : CacheItem (K:=K) (V:=V) → CacheItem (K:=K) (V:=V)) :
  heap w' = alter g item (heap w) → clock w' = clock w →
  (∀ it, touched (clock w) it (g it)) → follows w w'.
Proof.
  intros Hh Hc Hg. split_and!; [lia| |].
  - intros p it Hp. rewrite Hh. destruct (decide (item = p)) as [->|Hne].
    + exists (g it). rewrite list_lookup_alter_eq, Hp. done.
    + exists it. rewrite list_lookup_alter_ne by done. split; [done|by left].
  - intros p it' Hp Hn. rewrite Hh in Hp.
    destruct (decide (item = p)) as [->|Hne].
    + rewrite list_lookup_alter_eq, Hn in Hp. done.
    + rewrite list_lookup_alter_ne in Hp by done. congruence.
Qed.

Lemma follows_app w w' (new : list (CacheItem (K:=K) (V:=V))) :
  heap w' = heap w ++ new → clock w <= clock w' →
  Forall (λ it, clock w <= accessedOn it <= clock w' ∧ accessCount it = 0) new →
  follows w w'.
Proof.
  intros Hh Hc Hnew. split_and!; [lia| |].
  - intros p it Hp. exists it. rewrite Hh. split; [|by left].
    by apply lookup_app_l_Some.
  - intros p it' Hp Hn. rewrite Hh in Hp. apply lookup_app_Some in Hp as [Hp|[_ Hp]].
    + congruence.
    + rewrite Forall_forall in Hnew. apply Hnew. by eapply list_elem_of_lookup_2.
Qed.

Lemma addInternal_clock item w : clock (addInternal range item w) = clock w.
Proof.
  destruct (heap w !! item) as [it|] eqn:Hh; [|unfold addInternal; by rewrite Hh].
  destruct (addInternal_cases item it w Hh) as [Hyes Hno].
  destruct (decide (0 < lifeSpan it ∧
    (cleanupInterval (table w) = 0 ∨ lifeSpan it < cleanupInterval (table w)))) as [Hc|Hc].
  - rewrite (Hyes Hc). by destruct (expirationCheck_frame (stored item it w)) as (_ & -> & _).
  - by rewrite (Hno Hc).
Qed.

Lemma Add_follows k l d late w : follows w (Add range k l d late w).1.
Proof.
  rewrite Add_eq, NewCacheItem_eq. cbn [fst snd].
  eapply follows_app.
  - by rewrite addInternal_heap.
  - rewrite addInternal_clock. cbn. lia.
  - rewrite addInternal_clock. repeat constructor; cbn; lia.
Qed.

Lemma step_follows w op : follows w (step range w op).
Proof.
  destruct op; cbn [step].
  - apply follows_same; [done|]. cbn. lia.
  - unfold timerFires. destruct (cleanupTimer (table w)) as [tm|]; [|by apply follows_same].
    destruct (_ && _); [|by apply follows_same].
    match goal with |- follows _ (expirationCheck _ ?w1) =>
      destruct (expirationCheck_frame w1) as (Hh & Hc & _) end.
    apply follows_same; [by rewrite Hh|by rewrite Hc].
  - rewrite NewCacheItem_eq. eapply follows_app; [done|done|]. by repeat constructor.
  - eapply follows_alter; [done|done|]. intros it. by right.
  - destruct (heap w !! item) as [it|] eqn:Hh.
    + rewrite (SetAboutToExpireCallback_eq _ _ _ _ Hh).
      eapply follows_alter; [done|done|]. intros it'. by left.
    + unfold SetAboutToExpireCallback. rewrite Hh.
      eapply follows_alter; [done|done|]. intros it'. by left.
  - eapply follows_alter; [done|done|]. intros it'. by left.
  - eapply follows_alter; [done|done|]. intros it'. by left.
  - by apply follows_same.
  - rewrite SetAddedItemCallback_eq. by apply follows_same.
  - by apply follows_same.
  - by apply follows_same.
  - rewrite SetAboutToDeleteItemCallback_eq. by apply follows_same.
  - by apply follows_same.
  - by apply follows_same.
  - by apply follows_same.
  - apply Add_follows.
  - destruct (deleteInternal_frame k w) as (Hh & Hc & _).
    apply follows_same; [done|]. unfold Delete. rewrite Hc. lia.
  - unfold NotFoundAdd. destruct (items (table w) !! k); [by apply follows_same|].
    apply (Add_follows k l d late w).
  - unfold Value. destruct (items (table w) !! k) as [r|].
    { eapply follows_alter; [done|done|]. intros it. by right. }
    destruct (loadData (table w)) as [load|]; [|by apply follows_same].
    destruct (load k args) as [[[k' l'] d']|]; [|by apply follows_same].
    rewrite NewCacheItem_eq. cbn [heap set_heap fst snd]. rewrite lookup_snoc.
    cbn [lifeSpan data fst snd]. rewrite Add_eq, NewCacheItem_eq.
    cbn [fst snd heap set_heap set_clock clock].
    eapply follows_app.
    + rewrite addInternal_heap. cbn. by rewrite <- app_assoc.
    + rewrite addInternal_clock. cbn. lia.
    + rewrite addInternal_clock. repeat constructor; cbn; lia.
  - by apply follows_same.
Qed.

Lemma follows_sound n w w' :
  0 <= n → follows w w' → sound (n + 1) w → sound n w' ∧ heap_le (heap w) (heap w').
Proof.
  intros Hn (Hc & Hold & Hnew) [Hmax Hs]. split; [split; [lia|]|].
  - intros p it' Hp. destruct (heap w !! p) as [it|] eqn:Hw.
    + destruct (Hold p it Hw) as (it'' & Hp' & Ht). rewrite Hp in Hp'. injection Hp' as <-.
      destruct (Hs p it Hw) as (Ha & Hc0 & Hc1).
      destruct Ht as [[-> ->]|[-> ->]]; [lia|].
      rewrite wrap_int64_id by (unfold int64, min_int64, max_int64 in *; lia). lia.
    + destruct (Hnew p it' Hp Hw) as [? ->]. lia.
  - intros p it Hw. destruct (Hold p it Hw) as (it' & Hp & Ht). exists it'.
    split; [done|]. destruct (Hs p it Hw) as (Ha & Hc0 & Hc1).
    destruct Ht as [[-> ->]|[-> ->]]; [lia|].
    rewrite wrap_int64_id by (unfold int64, min_int64, max_int64 in *; lia). lia.
Qed.

Lemma heap_le_trans h1 h2 h3 : heap_le h1 h2 → heap_le h2 h3 → heap_le h1 h3.
Proof.
  intros H12 H23 p it Hp. destruct (H12 p it Hp) as (it2 & Hp2 & ? & ?).
  destruct (H23 p it2 Hp2) as (it3 & Hp3 & ? & ?). exists it3. split; [done|lia].
Qed.

Lemma run_sound ops : ∀ n w,
  0 <= n → sound (n + Z.of_nat (length ops)) w →
  sound n (run range ops w) ∧ heap_le (heap w) (heap (run range ops w)).
Proof.
  induction ops as [|op ops IH]; intros n w Hn Hs; cbn [run foldl length] in *.
  - rewrite Z.add_0_r in Hs. split; [done|]. intros p it Hp. exists it. split; [done|lia].
  - destruct (follows_sound (n + Z.of_nat (length ops)) w (step range w op)) as [Hs1 Hle1].
    + lia.
    + apply step_follows.
    + replace (n + Z.of_nat (length ops) + 1) with (n + Z.of_nat (S (length ops))) by lia.
      done.
    + destruct (IH n (step range w op) Hn Hs1) as [Hs2 Hle2].
      split; [done|]. by eapply heap_le_trans.
Qed.

Lemma run_app ops1 ops2 w : run range (ops1 ++ ops2) w = run range ops2 (run range ops1 w).
Proof. unfold run. apply foldl_app. Qed.

(** C9.  [KeepAlive] sets the item's last access to the current time and
    adds exactly one to its access count (an int64 below its maximum), and a
    run of calls on the table and its items, the clock moving forward and
    the timer firing in between, never lowers the access count of an item or
    moves its last access back: between any two points of the run both have
    only grown. *)
Theorem accessCount_accessedOn_monotone :
  (∀ w item it, heap w !! item = Some it →
     min_int64 <= accessCount it < max_int64 →
     ∃ it', heap (KeepAlive item w) !! item = Some it'
            ∧ accessedOn it' = clock w ∧ accessCount it' = accessCount it + 1)
  ∧ (∀ ops1 ops2 w, sound (Z.of_nat (length (ops1 ++ ops2))) w →
       heap_le (heap (run range ops1 w)) (heap (run range (ops1 ++ ops2) w))).
Proof.
  split.
  - intros w item it Hh Hc. exists (keepAlive (clock w) it). cbn.
    rewrite list_lookup_alter_eq, Hh. split_and!; [done|done|].
    cbn. apply wrap_int64_id. unfold int64, min_int64, max_int64 in *. lia.
  - intros ops1 ops2 w Hs. rewrite run_app.
    rewrite length_app, Nat2Z.inj_add, Z.add_comm in Hs.
    destruct (run_sound ops1 (Z.of_nat (length ops2)) w ltac:(lia) Hs) as [Hs1 _].
    replace (Z.of_nat (length ops2)) with (0 + Z.of_nat (length ops2)) in Hs1 by lia.
    by destruct (run_sound ops2 0 (run range ops1 w) ltac:(lia) Hs1) as [_ Hle].
Qed.

(** The hypothesis of the expiration theorem, from the items of the heap. *)
Lemma holds_Forall w (P : CacheItem (K:=K) (V:=V) → Prop) :
  Forall P (heap w) → ∀ k p it, holds w k p it → P it.
Proof.
  intros HP k p it [_ Hh]. rewrite Forall_forall in HP. apply HP.
  by eapply list_elem_of_lookup_2.
Qed.

(** ** Further properties of the table *)

(** *** Delete *)

(** X1.  [Delete] of a present key returns the item that was stored, takes
    that entry and no other out of the map, calls the about-to-delete
    callbacks of the table and then the expire callbacks of the item, and
    leaves the item itself, the timer and the cleanup interval as they were;
    a second [Delete] of the key fails. *)
Theorem Delete_present k p it w :
  holds w k p it →
  let r := Delete k w in
  r.2 = Ok p
  ∧ items (table r.1) = delete k (items (table w))
  ∧ Exists k r.1 = false
  ∧ Count r.1 = pred (Count w)
  ∧ heap r.1 = heap w
  ∧ events r.1 =
      events w ++ ((λ f, AboutToDeleteItemCall f p) <$> aboutToDeleteItem (table w))
               ++ ((λ f, AboutToExpireCall f k) <$> aboutToExpire it)
  ∧ cleanupTimer (table r.1) = cleanupTimer (table w)
  ∧ cleanupInterval (table r.1) = cleanupInterval (table w)
  ∧ Delete k r.1 = (r.1, Err ErrKeyNotFound).
Proof.
  intros [Hk Hh] r. subst r. unfold Delete. rewrite (deleteInternal_Some _ _ _ Hk).
  cbn [fst snd heap table events items set_items cleanupTimer cleanupInterval].
  assert (Hgone : delete k (items (table w)) !! k = None) by apply lookup_delete_eq.
  split_and!; try done.
  - unfold Exists. cbn. rewrite Hgone. apply bool_decide_eq_false. by intros [? ?].
  - unfold Count. cbn. by rewrite map_size_delete, Hk.
  - unfold delete_events. by rewrite Hh.
  - by apply deleteInternal_None.
Qed.

(** *** Add *)

Lemma Add_unfold k l d late w :
  let it := {| key := k; data := d; lifeSpan := l; createdOn := clock w;
               accessedOn := clock w; accessCount := 0; aboutToExpire := [] |} in
  let p := length (heap w) in
  let w1 := set_clock (clock w + Z.of_N late) (set_heap (heap w ++ [it]) w) in
  heap w1 !! p = Some it
  ∧ Add range k l d late w = (addInternal range p w1, p).
Proof. cbn. split; [apply lookup_snoc|done]. Qed.

(** X2.  What [Add] stores, [Value] finds.  If the lifespan given is not
    positive, or was not over when [Add] read the clock again, then [Value]
    of the key, at any later time at which no cleanup has run, returns the
    very item [Add] returned; the item has the key, the data and the
    lifespan given, was created when [Add] made it and last accessed when
    [Value] ran, and this first access makes its access count 1.  The hit
    changes neither the table nor the calls made. *)
Theorem Add_then_Value k l d late (n : N) args late1 late2 w :
  l <= 0 ∨ Z.of_N late < l →
  let a := Add range k l d late w in
  let v := Value range k args late1 late2 (set_clock (clock a.1 + Z.of_N n) a.1) in
  v.2 = Ok a.2
  ∧ CacheItem_Key a.2 v.1 = Some k
  ∧ Data a.2 v.1 = Some d
  ∧ LifeSpan a.2 v.1 = Some l
  ∧ CreatedOn a.2 v.1 = Some (clock w)
  ∧ AccessedOn a.2 v.1 = Some (clock w + Z.of_N late + Z.of_N n)
  ∧ CacheItem_AccessCount a.2 v.1 = Some 1
  ∧ table v.1 = table a.1
  ∧ events v.1 = events a.1.
Proof.
  intros Hl a v. destruct (Add_lookup k l d late w) as (Hp & Hk & _ & _ & it & Hh & Hpr).
  specialize (Hk ltac:(tauto)).
  fold a in Hp, Hk, Hh. subst v. unfold Value. cbn [set_clock table]. rewrite Hk.
  assert (Hc : clock a.1 = clock w + Z.of_N late).
  { unfold a. rewrite Add_eq. cbn [fst]. by rewrite addInternal_clock. }
  clearbody a.
  unfold CacheItem_Key, Data, LifeSpan, CreatedOn, AccessedOn, CacheItem_AccessCount.
  cbn [fst snd heap clock KeepAlive set_heap set_clock table events].
  rewrite list_lookup_alter_eq, Hh, Hp, lookup_snoc. cbn.
  destruct Hpr as (-> & -> & -> & -> & _ & -> & _). by rewrite Hc.
Qed.

(** X3.  An item whose lifespan is 0 or negative never starts the
    scheduler: [Add] stores it at its key, replacing what was there, calls
    the added-item callbacks and nothing else, and leaves every other entry,
    the timer and the cleanup interval alone; the table has one entry more
    exactly when the key was absent. *)
Theorem Add_immortal k l d late w :
  l <= 0 →
  let r := Add range k l d late w in
  items (table r.1) = <[k := r.2]> (items (table w))
  ∧ Count r.1 = match items (table w) !! k with
              | Some _ => Count w
              | None => S (Count w)
              end
  ∧ events r.1 = events w ++ ((λ f, AddedItemCall f r.2) <$> addedItem (table w))
  ∧ cleanupTimer (table r.1) = cleanupTimer (table w)
  ∧ cleanupInterval (table r.1) = cleanupInterval (table w).
Proof.
  intros Hl r. subst r. destruct (Add_unfold k l d late w) as [Hh ->].
  match type of Hh with heap ?w1 !! ?p = Some ?it =>
    destruct (addInternal_cases p it w1 Hh) as [_ Hno] end.
  rewrite Hno by (cbn; lia). cbn. split_and!; try done.
  unfold Count. destruct (items (table w) !! k) as [q|] eqn:Hk.
  - by rewrite map_size_insert_Some.
  - by rewrite map_size_insert_None.
Qed.

(** X4.  [NotFoundAdd] twice.  Once a key has been added and its item has
    outlived the call, a second [NotFoundAdd] of the key, whatever its
    lifespan and data, returns false and changes nothing.  If the first call
    ran the scheduler with the lifespan over already, the key is absent
    again and the second call returns true as well. *)
Theorem NotFoundAdd_twice k l d late l' d' late' w :
  items (table w) !! k = None →
  let r := NotFoundAdd range k l d late w in
  let expDur := cleanupInterval (table w) in
  r.2 = true
  ∧ (l <= 0 ∨ Z.of_N late < l ∨ (expDur ≠ 0 ∧ expDur <= l) →
     NotFoundAdd range k l' d' late' r.1 = (r.1, false))
  ∧ (0 < l <= Z.of_N late → l <= max_int64 → expDur = 0 ∨ l < expDur →
     (NotFoundAdd range k l' d' late' r.1).2 = true).
Proof.
  intros Hk r expDur. subst r.
  destruct (Add_lookup k l d late w) as (_ & Hin & Hout & _).
  assert (Heq : NotFoundAdd range k l d late w = ((Add range k l d late w).1, true)).
  { unfold NotFoundAdd, Add. by rewrite Hk. }
  rewrite Heq. cbn [fst snd]. split_and!; [done| |].
  - intros Hc. unfold NotFoundAdd. by rewrite (Hin Hc).
  - intros Hl Hmax Hc. unfold NotFoundAdd. rewrite (Hout Hl Hmax Hc).
    by destruct (NewCacheItem _ _ _ _).
Qed.

(** X5.  Once the callbacks are removed none is called: after
    [RemoveAddedItemCallbacks], [Add] calls no added-item callback, and
    after [RemoveAboutToDeleteItemCallback] on the table and
    [RemoveAboutToExpireCallback] on the item, [Delete] calls nothing. *)
Theorem Remove_callbacks w :
  (∀ k l d late, let r := Add range k l d late (RemoveAddedItemCallbacks w) in
     ∃ rest, events r.1 = events w ++ rest ∧ Forall (λ ev, ¬ is_added ev) rest)
  ∧ (∀ k p it, holds w k p it →
       events (Delete k (RemoveAboutToExpireCallback p
                           (RemoveAboutToDeleteItemCallback w))).1 = events w).
Proof.
  split.
  - intros k l d late.
    destruct (Add_events k l d late (RemoveAddedItemCallbacks w)) as (rest & He & Hr).
    exists rest. split; [|done]. cbn zeta in He. rewrite He. done.
  - intros k p it [Hk Hh]. unfold Delete. erewrite deleteInternal_Some by exact Hk.
    cbn. unfold delete_events. cbn. rewrite list_lookup_alter_eq, Hh. cbn.
    by rewrite app_nil_r.
Qed.

(** *** The scheduler *)

Lemma expirationCheck_timer w :
  let w' := expirationCheck range w in
  cleanupTimer (table w') =
    if 0 <? cleanupInterval (table w')
    then Some {| time.fireAt := clock w + cleanupInterval (table w'); time.active := true |}
    else time.Stop <$> cleanupTimer (table w).
Proof.
  unfold expirationCheck. cbv zeta.
  match goal with |- context [foldl (expirationCheck_iter ?now) ?st ?es] =>
    pose proof (scan_frame now es st) as Hf;
    revert Hf; generalize (foldl (expirationCheck_iter now) st es) end.
  intros [w1 s1] Hf. cbn in Hf. destruct Hf as (_ & _ & [m Hm] & _).
  destruct (0 <? s1) eqn:Hs; cbn; rewrite Hs; [done|]. by rewrite Hm.
Qed.

Lemma expirationCheck_timer_ok w : timer_ok (expirationCheck range w).
Proof.
  unfold timer_ok. rewrite expirationCheck_timer.
  destruct (Z.ltb_spec 0 (cleanupInterval (table (expirationCheck range w)))) as [Hpos|Hle].
  - split; [|done]. intros _. by eexists.
  - split; [lia|]. intros (tm & Htm & Hact).
    destruct (cleanupTimer (table w)) as [tm'|]; [|done].
    injection Htm as <-. done.
Qed.



(** *** What every call keeps *)

Lemma heap_evolves_same h h' : h' = h → heap_evolves h h'.
Proof.
  intros ->. exists id, 0%nat, []. split; [|done].
  by rewrite app_nil_r, list_alter_id.
Qed.

Lemma heap_evolves_app h (new : list (CacheItem (K:=K) (V:=V))) : heap_evolves h (h ++ new).
Proof. exists id, 0%nat, new. split; [|done]. by rewrite list_alter_id. Qed.

Lemma heap_evolves_alter h i (g : CacheItem (K:=K) (V:=V) → CacheItem (K:=K) (V:=V)) :
  (∀ it, same_identity it (g it)) → heap_evolves h (alter g i h).
Proof. intros Hg. exists g, i, []. split; [|done]. by rewrite app_nil_r. Qed.

Lemma heap_evolves_lookup h h' p it :
  heap_evolves h h' → h !! p = Some it →
  ∃ it', h' !! p = Some it' ∧ same_identity it it'.
Proof.
  intros (g & i & new & -> & Hg) Hp. destruct (decide (i = p)) as [->|Hne].
  - exists (g it). split; [|done]. apply lookup_app_l_Some.
    by rewrite list_lookup_alter_eq, Hp.
  - exists it. split; [|done]. apply lookup_app_l_Some.
    by rewrite list_lookup_alter_ne.
Qed.

Lemma Add_heap k l d late w :
  heap (Add range k l d late w).1 =
    heap w ++ [ {| key := k; data := d; lifeSpan := l; createdOn := clock w;
                   accessedOn := clock w; accessCount := 0; aboutToExpire := [] |} ].
Proof. rewrite Add_eq, NewCacheItem_eq. cbn [fst snd]. by rewrite addInternal_heap. Qed.

Lemma timerFires_frame w :
  heap (timerFires range w) = heap w ∧ clock (timerFires range w) = clock w.
Proof.
  unfold timerFires. destruct (cleanupTimer (table w)) as [tm|]; [|done].
  destruct (_ && _); [|done].
  match goal with |- context [expirationCheck _ ?w1] =>
    destruct (expirationCheck_frame w1) as (Hh & Hc & _) end.
  by rewrite Hh, Hc.
Qed.

Lemma Value_heap k args late1 late2 w :
  heap_evolves (heap w) (heap (Value range k args late1 late2 w).1).
Proof.
  unfold Value. destruct (items (table w) !! k) as [r|].
  { apply heap_evolves_alter. by intros it. }
  destruct (loadData (table w)) as [load|]; [|by apply heap_evolves_same].
  destruct (load k args) as [[[k' l'] d']|]; [|by apply heap_evolves_same].
  rewrite NewCacheItem_eq. cbn [heap set_heap fst snd]. rewrite lookup_snoc.
  cbn [lifeSpan data fst snd]. rewrite Add_heap. cbn [heap set_heap set_clock].
  rewrite <- app_assoc. apply heap_evolves_app.
Qed.

Lemma step_heap w op : heap_evolves (heap w) (heap (step range w op)).
Proof.
  destruct op; cbn [step];
    try (apply heap_evolves_same; reflexivity);
    try (apply heap_evolves_alter; by intros it).
  - apply heap_evolves_same. apply timerFires_frame.
  - rewrite NewCacheItem_eq. apply heap_evolves_app.
  - destruct (heap w !! item) as [it|] eqn:Hh.
    + rewrite (SetAboutToExpireCallback_eq _ _ _ _ Hh). apply heap_evolves_alter. by intros it'.
    + unfold SetAboutToExpireCallback. rewrite Hh. apply heap_evolves_alter. by intros it'.
  - rewrite SetAddedItemCallback_eq. by apply heap_evolves_same.
  - rewrite SetAboutToDeleteItemCallback_eq. by apply heap_evolves_same.
  - rewrite Add_heap. apply heap_evolves_app.
  - apply heap_evolves_same. by destruct (deleteInternal_frame k w) as (Hh & _).
  - unfold NotFoundAdd. destruct (items (table w) !! k); [by apply heap_evolves_same|].
    pose proof (Add_heap k l d late w) as Hh. unfold Add in Hh. unfold NotFoundAdd.
    destruct (NewCacheItem k l d w) as [item w1]. cbn [fst snd] in *. rewrite Hh.
    apply heap_evolves_app.
  - apply Value_heap.
Qed.

(** X7.  The accessors that the source calls immutable are: over any run of
    calls, timer firings and waits, an item stays in memory and its key,
    data, lifespan and creation time are what they were, whether the table
    still holds it or not. *)
Theorem identity_kept ops w item it :
  heap w !! item = Some it →
  let w' := run range ops w in
  CacheItem_Key item w' = Some (key it)
  ∧ Data item w' = Some (data it)
  ∧ LifeSpan item w' = Some (lifeSpan it)
  ∧ CreatedOn item w' = Some (createdOn it).
Proof.
  intros Hh w'. subst w'.
  assert (∃ it', heap (run range ops w) !! item = Some it' ∧ same_identity it it')
    as (it' & Hit' & Hk & Hd & Hl & Hc).
  { revert w it Hh. induction ops as [|op ops IH]; intros w it Hh; cbn [run foldl].
    - by exists it.
    - destruct (heap_evolves_lookup _ _ _ _ (step_heap w op) Hh) as (it1 & H1 & Hs1).
      destruct (IH _ _ H1) as (it2 & H2 & Hs2). exists it2. split; [done|].
      destruct Hs1 as (? & ? & ? & ?), Hs2 as (? & ? & ? & ?).
      unfold same_identity. split_and!; congruence. }
  unfold CacheItem_Key, Data, LifeSpan, CreatedOn. rewrite Hit'. cbn.
  by rewrite Hk, Hd, Hl, Hc.
Qed.

Lemma expirationCheck_subset w k p :
  items (table (expirationCheck range w)) !! k = Some p → items (table w) !! k = Some p.
Proof.
  rewrite expirationCheck_lookup. destruct (items (table w) !! k) as [q|]; [|done].
  by destruct (doomed (heap w) (clock w) (k, q)).
Qed.

Lemma expirationCheck_stays w k p it :
  holds w k p it →
  items (table (expirationCheck range w)) !! k = Some p ∨ overdue (clock w) it = true.
Proof.
  intros [Hk Hh]. rewrite expirationCheck_lookup, Hk. unfold doomed. cbn. rewrite Hh.
  destruct (overdue (clock w) it); [by right|by left].
Qed.

Lemma timerFires_subset w k p :
  items (table (timerFires range w)) !! k = Some p → items (table w) !! k = Some p.
Proof.
  unfold timerFires. destruct (cleanupTimer (table w)) as [tm|]; [|done].
  destruct (_ && _); [|done]. by intros ?%expirationCheck_subset.
Qed.

Lemma addInternal_items item it0 w k p :
  heap w !! item = Some it0 →
  items (table (addInternal range item w)) !! k = Some p →
  (k = key it0 ∧ p = item) ∨ (k ≠ key it0 ∧ items (table w) !! k = Some p).
Proof.
  intros Hh. destruct (addInternal_cases item it0 w Hh) as [Hyes Hno].
  assert (Hst : items (table (stored item it0 w)) !! k = Some p →
            (k = key it0 ∧ p = item) ∨ (k ≠ key it0 ∧ items (table w) !! k = Some p)).
  { cbn. destruct (decide (key it0 = k)) as [<-|Hne].
    - rewrite lookup_insert_eq. intros [= <-]. by left.
    - rewrite lookup_insert_ne by done. intros ?. right. by split. }
  destruct (decide (0 < lifeSpan it0 ∧
    (cleanupInterval (table w) = 0 ∨ lifeSpan it0 < cleanupInterval (table w)))) as [Hc|Hc].
  - rewrite (Hyes Hc). by intros ?%expirationCheck_subset%Hst.
  - by rewrite (Hno Hc).
Qed.

Lemma addInternal_stays item it0 w k p it :
  heap w !! item = Some it0 → key it0 ≠ k → holds w k p it →
  items (table (addInternal range item w)) !! k = Some p ∨ overdue (clock w) it = true.
Proof.
  intros Hh Hne [Hk Hp]. destruct (addInternal_cases item it0 w Hh) as [Hyes Hno].
  assert (Hst : holds (stored item it0 w) k p it).
  { split; [|done]. cbn. by rewrite lookup_insert_ne. }
  destruct (decide (0 < lifeSpan it0 ∧
    (cleanupInterval (table w) = 0 ∨ lifeSpan it0 < cleanupInterval (table w)))) as [Hc|Hc].
  - rewrite (Hyes Hc). apply (expirationCheck_stays _ _ _ _ Hst).
  - rewrite (Hno Hc). left. apply Hst.
Qed.

Lemma Add_clock k l d late w : clock (Add range k l d late w).1 = clock w + Z.of_N late.
Proof. rewrite Add_eq. cbn [fst]. by rewrite addInternal_clock. Qed.

Lemma Add_items k0 l d late w k p :
  items (table (Add range k0 l d late w).1) !! k = Some p →
  (k = k0 ∧ p = length (heap w)) ∨ (k ≠ k0 ∧ items (table w) !! k = Some p).
Proof.
  destruct (Add_unfold k0 l d late w) as [Hh ->]. cbn [fst].
  intros Hin. by destruct (addInternal_items _ _ _ _ _ Hh Hin) as [[-> ->]|[? ?]]; [left|right].
Qed.

Lemma Add_stays k0 l d late w k p it :
  k0 ≠ k → holds w k p it →
  items (table (Add range k0 l d late w).1) !! k = Some p
  ∨ overdue (clock (Add range k0 l d late w).1) it = true.
Proof.
  intros Hne [Hk Hp]. rewrite Add_clock.
  destruct (Add_unfold k0 l d late w) as [Hh ->]. cbn [fst].
  eapply (addInternal_stays _ _ _ _ _ _ Hh); [done|].
  split; [done|]. cbn. by apply lookup_app_l_Some.
Qed.

(** Where an entry of the table after a call comes from: it was there, or
    it points to an item made during the call, which has the key. *)
Lemma step_items w op k p :
  items (table (step range w op)) !! k = Some p →
  items (table w) !! k = Some p
  ∨ (heap w !! p = None ∧ ∃ it, heap (step range w op) !! p = Some it ∧ key it = k).
Proof.
  assert (HAdd : ∀ k0 l d late w0, heap w0 = heap w ∨ (∃ it, heap w0 = heap w ++ [it]) →
            items (table w0) = items (table w) →
            items (table (Add range k0 l d late w0).1) !! k = Some p →
            items (table w) !! k = Some p
            ∨ (heap w !! p = None
               ∧ ∃ it, heap (Add range k0 l d late w0).1 !! p = Some it ∧ key it = k)).
  { intros k0 l d late w0 Hw0 Hit [[-> ->]|[_ Hin]]%Add_items; [right|left; by rewrite <- Hit].
    split.
    - apply lookup_ge_None. destruct Hw0 as [->|[it ->]]; [lia|]. rewrite length_app. lia.
    - eexists. rewrite Add_heap. split; [apply lookup_snoc|done]. }
  destruct op; cbn [step]; try (by left).
  - intros ?%timerFires_subset. by left.
  - unfold SetAboutToExpireCallback. destruct (heap w !! item) as [it|]; [|by left].
    destruct (0 <? _)%nat; by left.
  - rewrite SetAddedItemCallback_eq. by left.
  - rewrite SetAboutToDeleteItemCallback_eq. by left.
  - apply HAdd; [by left|done].
  - unfold Delete, deleteInternal. destruct (items (table w) !! k0) as [r|] eqn:Hk0; [|by left].
    cbn. destruct (heap w !! r); cbn; intros [_ ?]%lookup_delete_Some; by left.
  - unfold NotFoundAdd. destruct (items (table w) !! k0); [by left|].
    pose proof (HAdd k0 l d late w (or_introl eq_refl) eq_refl) as HA. unfold Add in HA.
    destruct (NewCacheItem k0 l d w) as [item w1]. apply HA.
  - unfold Value. destruct (items (table w) !! k0) as [r|]; [by left|].
    destruct (loadData (table w)) as [load|]; [|by left].
    destruct (load k0 args) as [[[k' l'] d']|]; [|by left].
    rewrite NewCacheItem_eq. cbn [heap set_heap fst snd]. rewrite lookup_snoc.
    cbn [lifeSpan data fst snd]. apply HAdd; [right; by eexists|done].
Qed.

(** X8.  Over any run, every entry of the table points to an item that
    exists and carries the key of the entry, so no item sits under two keys
    and a lookup never yields a dangling or foreign item. *)
Theorem table_wf_kept ops w :
  table_wf w →
  let w' := run range ops w in
  table_wf w'
  ∧ (∀ k1 k2 p, items (table w') !! k1 = Some p → items (table w') !! k2 = Some p → k1 = k2).
Proof.
  intros Hwf w'. assert (Hwf' : table_wf w').
  { subst w'. revert w Hwf. induction ops as [|op ops IH]; intros w Hwf; [done|].
    cbn [run foldl]. apply IH. intros k p Hin.
    destruct (step_items w op k p Hin) as [Hold|[_ Hnew]]; [|done].
    destruct (Hwf k p Hold) as (it & Hit & Hkey).
    destruct (heap_evolves_lookup _ _ _ _ (step_heap w op) Hit) as (it' & Hit' & Hk' & _).
    exists it'. split; [done|congruence]. }
  split; [done|]. intros k1 k2 p H1 H2.
  destruct (Hwf' k1 p H1) as (it1 & Hit1 & <-), (Hwf' k2 p H2) as (it2 & Hit2 & <-).
  congruence.
Qed.

(** X9.  An entry leaves the table only when its key is deleted or added
    anew, when the table is flushed, or when its lifespan, not 0, has
    elapsed at the time the step read the clock last: no other call, timer
    firing or wait takes it out or puts another item in its place. *)
Theorem entry_leaves op w k p it :
  holds w k p it →
  items (table (step range w op)) !! k = Some p
  ∨ op = CallDelete k
  ∨ op = CallFlush
  ∨ (∃ l d late, op = CallAdd k l d late)
  ∨ overdue (clock (step range w op)) it = true.
Proof.
  intros Hh. pose proof Hh as [Hk Hp].
  destruct op; cbn [step]; try (by left); try (by right; right; left).
  - destruct (timerFires_frame w) as [_ ->].
    unfold timerFires. destruct (cleanupTimer (table w)) as [tm|]; [|by left].
    destruct (_ && _); [|by left].
    match goal with |- context [expirationCheck _ ?w1] =>
      destruct (expirationCheck_stays w1 k p it) as [?|?]; [done|by left|by do 4 right] end.
  - unfold SetAboutToExpireCallback. destruct (heap w !! item) as [it'|]; [|by left].
    destruct (0 <? _)%nat; by left.
  - rewrite SetAddedItemCallback_eq. by left.
  - rewrite SetAboutToDeleteItemCallback_eq. by left.
  - destruct (decide (k0 = k)) as [->|Hne]; [right; right; right; left; by do 3 eexists|].
    destruct (Add_stays k0 l d late w k p it Hne Hh) as [?|?]; [by left|by do 4 right].
  - destruct (decide (k0 = k)) as [->|Hne]; [by right; left|left].
    unfold Delete, deleteInternal. destruct (items (table w) !! k0) as [r|]; [|done].
    cbn. destruct (heap w !! r); cbn; by rewrite lookup_delete_ne.
  - unfold NotFoundAdd. destruct (items (table w) !! k0) eqn:Hk0; [by left|].
    assert (k0 ≠ k) as Hne by congruence.
    pose proof (Add_stays k0 l d late w k p it Hne Hh) as HA. unfold Add in HA.
    destruct (NewCacheItem k0 l d w) as [item w1]. destruct HA as [?|?]; [by left|by do 4 right].
  - unfold Value. destruct (items (table w) !! k0) as [r|] eqn:Hk0; [by left|].
    assert (k0 ≠ k) as Hne by congruence.
    destruct (loadData (table w)) as [load|]; [|by left].
    destruct (load k0 args) as [[[k' l'] d']|]; [|by left].
    rewrite NewCacheItem_eq. cbn [heap set_heap fst snd]. rewrite lookup_snoc.
    cbn [lifeSpan data fst snd].
    match goal with |- context [Add range k0 l' d' late2 ?w1] =>
      destruct (Add_stays k0 l' d' late2 w1 k p it Hne) as [?|?]; [|by left|by do 4 right] end.
    split; [done|]. cbn. by apply lookup_app_l_Some.
Qed.

(** *** The timer over a run *)

Lemma timer_ok_same w w' :
  cleanupTimer (table w') = cleanupTimer (table w) →
  cleanupInterval (table w') = cleanupInterval (table w) →
  timer_ok w → timer_ok w'.
Proof. unfold timer_ok. by intros -> ->. Qed.

Lemma addInternal_timer_ok item w : timer_ok w → timer_ok (addInternal range item w).
Proof.
  intros Hok. destruct (heap w !! item) as [it|] eqn:Hh; [|unfold addInternal; by rewrite Hh].
  destruct (addInternal_cases item it w Hh) as [Hyes Hno].
  destruct (decide (0 < lifeSpan it ∧
    (cleanupInterval (table w) = 0 ∨ lifeSpan it < cleanupInterval (table w)))) as [Hc|Hc].
  - rewrite (Hyes Hc). apply expirationCheck_timer_ok.
  - rewrite (Hno Hc). by apply (timer_ok_same w).
Qed.

Lemma Add_timer_ok k l d late w : timer_ok w → timer_ok (Add range k l d late w).1.
Proof.
  intros Hok. rewrite Add_eq, NewCacheItem_eq. cbn [fst snd].
  apply addInternal_timer_ok. by apply (timer_ok_same w).
Qed.

Lemma step_timer_ok w op : timer_ok w → timer_ok (step range w op).
Proof.
  intros Hok. destruct op; cbn [step]; try (by apply (timer_ok_same w)).
  - unfold timerFires. destruct (cleanupTimer (table w)) as [tm|]; [|done].
    destruct (_ && _); [|done]. apply expirationCheck_timer_ok.
  - unfold SetAboutToExpireCallback. destruct (heap w !! item) as [it|]; [|done].
    by destruct (0 <? _)%nat.
  - rewrite SetAddedItemCallback_eq. by apply (timer_ok_same w).
  - rewrite SetAboutToDeleteItemCallback_eq. by apply (timer_ok_same w).
  - by apply Add_timer_ok.
  - destruct (deleteInternal_frame k w) as (_ & _ & [m Hm] & _).
    apply (timer_ok_same w); [| |done]; unfold Delete; by rewrite Hm.
  - unfold NotFoundAdd. destruct (items (table w) !! k); [done|].
    pose proof (Add_timer_ok k l d late w Hok) as HA. unfold Add in HA.
    by destruct (NewCacheItem k l d w).
  - unfold Value. destruct (items (table w) !! k) as [r|]; [by apply (timer_ok_same w)|].
    destruct (loadData (table w)) as [load|]; [|done].
    destruct (load k args) as [[[k' l'] d']|]; [|done].
    rewrite NewCacheItem_eq. cbn [heap set_heap fst snd]. rewrite lookup_snoc.
    cbn [lifeSpan data fst snd]. apply Add_timer_ok. by apply (timer_ok_same w).
  - unfold timer_ok. cbn. split; [lia|]. intros (tm & Htm & Hact).
    destruct (cleanupTimer (table w)) as [tm'|]; [|done]. by injection Htm as <-.
Qed.

(** X10.  Over any run of calls, timer firings and waits, a timer is waiting
    exactly when the cleanup interval of the table is positive. *)
Theorem timer_ok_kept ops w : timer_ok w → timer_ok (run range ops w).
Proof.
  revert w. induction ops as [|op ops IH]; intros w Hok; [done|].
  cbn [run foldl]. apply IH. by apply step_timer_ok.
Qed.

(** *** A single mortal item, from [Add] to expiry *)









(** *** MostAccessed, how many *)

Lemma omap_resolved (m : gmap K nat) (mk : K * nat → CacheItemPair (K:=K)) es :
  (∀ e, Key (mk e) = e.1) → (∀ e, e ∈ es → m !! e.1 = Some e.2) →
  omap (λ v, m !! Key v) (mk <$> es) = es.*2.
Proof.
  intros Hk. induction es as [|e es IH]; intros Hin; [done|].
  cbn. rewrite Hk, (Hin e) by left. cbn. f_equal. apply IH. intros; apply Hin. by right.
Qed.

Lemma length_omap_resolved (m : gmap K nat) (ps : list (CacheItemPair (K:=K))) :
  (∀ v, v ∈ ps → is_Some (m !! Key v)) →
  length (omap (λ v, m !! Key v) ps) = length ps.
Proof.
  induction ps as [|v ps IH]; intros Hin; [done|].
  cbn. destruct (Hin v) as [q ->]; [by left|]. cbn. f_equal. apply IH.
  intros; apply Hin. by right.
Qed.

(** X13.  [MostAccessed count] returns [count] items, or all of them when
    the table has fewer: none for a [count] of 0 or less, and for a [count]
    of the size of the table or more every item of the table, each once. *)
Theorem MostAccessed_size count w :
  let res := MostAccessed range sort_Sort count w in
  length res = (Z.to_nat count `min` Count w)%nat
  ∧ (count <= 0 → res = [])
  ∧ (Z.of_nat (Count w) <= count → res ≡ₚ (map_to_list (items (table w))).*2).
Proof.
  intros res. subst res. unfold MostAccessed. rewrite mostAccessed_loop_eq, Z.sub_0_r.
  cbn [app].
  set (mk := λ e : K * nat, {| Key := e.1; AccessCount := from_option accessCount 0 (heap w !! e.2) |}).
  set (ps := sort_Sort (fmap mk (range (items (table w))))).
  assert (Hlen : length ps = Count w).
  { unfold ps, Count. rewrite sort_Sort_perm, length_fmap, (range_perm (items (table w))).
    apply length_map_to_list. }
  assert (Hps : ∀ v, v ∈ ps → is_Some (items (table w) !! Key v)).
  { intros v Hv. unfold ps in Hv. rewrite sort_Sort_perm in Hv.
    apply list_elem_of_fmap in Hv as ([k q] & -> & Hin). apply elem_of_range in Hin.
    by exists q. }
  split_and!.
  - rewrite length_omap_resolved, length_take, Hlen; [done|].
    intros v (i & Hi & _)%elem_of_take. apply Hps. by eapply list_elem_of_lookup_2.
  - intros Hc. by replace (Z.to_nat count) with 0%nat by lia.
  - intros Hc. rewrite take_ge by lia. unfold ps.
    rewrite sort_Sort_perm, (range_perm (items (table w))).
    rewrite omap_resolved; [done|done|]. intros [k q] Hin. by apply elem_of_map_to_list.
Qed.

(** *** Foreach *)

Lemma foldl_snoc_id {A B} (xs acc : list (A * B)) :
  foldl (λ a x, a ++ [(x.1, x.2)]) acc xs = acc ++ xs.
Proof.
  revert acc. induction xs as [|[x y] xs IH]; intros acc; cbn; [by rewrite app_nil_r|].
  by rewrite IH, <- app_assoc.
Qed.

(** X14.  [Foreach] calls its function once for every entry of the table and
    for nothing else: the entries it was called with, in the order of the
    calls, have distinct keys, are as many as [Count] says, are the entries
    of the table, with the keys on which [Exists] is true; and whatever the
    function does, [Foreach] does it on those entries in that order. *)
Theorem Foreach_visits w :
  let seen := Foreach range (λ k p acc, acc ++ [(k, p)]) [] w in
  NoDup seen.*1
  ∧ length seen = Count w
  ∧ (∀ k p, (k, p) ∈ seen ↔ items (table w) !! k = Some p)
  ∧ (∀ k, k ∈ seen.*1 ↔ Exists k w = true)
  ∧ (∀ (A : Type) (trans : K → nat → A → A) (a : A),
       Foreach range trans a w = foldl (λ a e, trans e.1 e.2 a) a seen).
Proof.
  intros seen.
  assert (Hseen : seen = range (items (table w))).
  { unfold seen, Foreach. cbn. by rewrite foldl_snoc_id. }
  rewrite Hseen. split_and!.
  - apply range_NoDup.
  - unfold Count. rewrite (range_perm (items (table w))). apply length_map_to_list.
  - intros k p. apply elem_of_range.
  - intros k. unfold Exists. rewrite bool_decide_eq_true. split.
    + intros ([k' p] & -> & Hin%elem_of_range)%list_elem_of_fmap. by exists p.
    + intros [p Hp]. apply list_elem_of_fmap. exists (k, p). by rewrite elem_of_range.
  - done.
Qed.

(** *** The registry of tables *)

(** X15.  [Cache] returns the table registered under the name, the same one
    at every call; a name seen for the first time gets a new table, of that
    name, empty, with no timer, loader or callback; tables of other names
    are not the one returned, and neither they nor their names change. *)
Theorem Cache_spec tname (reg : Registry (K:=K) (V:=V)) :
  registry_wf reg →
  let r := Cache tname reg in
  registry_wf r.2
  ∧ cache r.2 !! tname = Some r.1
  ∧ Cache tname r.2 = r
  ∧ (∃ tb, tables r.2 !! r.1 = Some tb ∧ name tb = tname
           ∧ (cache reg !! tname = None →
              items tb = ∅ ∧ cleanupTimer tb = None ∧ cleanupInterval tb = 0
              ∧ loadData tb = None ∧ addedItem tb = [] ∧ aboutToDeleteItem tb = []))
  ∧ (∀ n, n ≠ tname → cache r.2 !! n = cache reg !! n)
  ∧ (∀ n t, n ≠ tname → cache r.2 !! n = Some t → t ≠ r.1)
  ∧ (∀ t tb, tables reg !! t = Some tb → tables r.2 !! t = Some tb).
Proof.
  intros Hwf r. subst r. unfold Cache.
  destruct (cache reg !! tname) as [t|] eqn:Hc; cbn.
  - rewrite Hc. destruct (Hwf _ _ Hc) as (tb & Htb & Hn). split_and!; try done.
    + exists tb. by split_and!.
    + intros n t' Hne Hn' ->. destruct (Hwf _ _ Hn') as (tb' & Htb' & Hn''). congruence.
  - rewrite !lookup_insert_eq. split_and!; try done.
    + intros n t Hn. cbn in Hn |- *. destruct (decide (n = tname)) as [->|Hne].
      * rewrite lookup_insert_eq in Hn. injection Hn as <-.
        eexists. split; [by apply list_lookup_middle|done].
      * rewrite lookup_insert_ne in Hn by done. destruct (Hwf _ _ Hn) as (tb & Htb & Hname).
        exists tb. split; [|done]. by apply lookup_app_l_Some.
    + eexists. split; [by apply list_lookup_middle|]. by split_and!.
    + intros n Hne. by rewrite lookup_insert_ne.
    + intros n t Hne Hn ->. rewrite lookup_insert_ne in Hn by done.
      destruct (Hwf _ _ Hn) as (tb & Htb & _). apply lookup_lt_Some in Htb. lia.
    + intros t tb Htb. by apply lookup_app_l_Some.
Qed.


End properties.

(** ** The theorems at work on the example tables *)

Lemma range_is_permutation (m : gmap string nat) : Ex.range m ≡ₚ map_to_list m.
Proof. done. Qed.

#[local] Instance Less_total : Total Ex.Less.
Proof. intros x y. unfold Ex.Less. lia. Qed.

Lemma sort_Sort_is_permutation ps : Ex.sort_Sort ps ≡ₚ ps.
Proof. apply merge_sort_Permutation. Qed.

Lemma sort_Sort_is_sorted ps :
  Sorted (λ x y, AccessCount y <= AccessCount x) (Ex.sort_Sort ps).
Proof. apply (Sorted_merge_sort Ex.Less). Qed.

(** C1, at the failing input: with the loader of [examples/dataloader],
    [Value "someKey_0"] on the empty table returns item 0, the loader's,
    while the table holds item 1. *)
Lemma Value_returns_loaded_item_witness :
  let r := Value Ex.range "someKey_0" [] 1 1 Ex.loading in
  r.2 = Ok 0%nat
  ∧ items (table r.1) !! "someKey_0" = Some 1%nat
  ∧ items (table r.1) !! "someKey_0" ≠ Some 0%nat.
Proof.
  destruct (Value_returns_loaded_item Ex.range range_is_permutation
              "someKey_0" [] 1%N 1%N Ex.loader "someKey_0" 0
              "This is a test with key someKey_0" Ex.loading)
    as (H1 & H2 & H3 & _); [vm_compute; reflexivity..|].
  split_and!; [exact H1|apply H2; left; lia|exact H3].
Defined.

(** C2, as stated, fails on a negative lifespan: "b" has lifespan -1, so it
    is not an item with a positive lifespan that has elapsed, and one run of
    [expirationCheck] deletes it; so does the run that [Add] of a third item,
    of lifespan 3, starts. *)
Lemma expirationCheck_deletes_negative_lifespan :
  ∃ it, holds Ex.negative "b" 1%nat it
        ∧ lifeSpan it = -1
        ∧ ¬ (0 < lifeSpan it ∧ lifeSpan it <= clock Ex.negative - accessedOn it)
        ∧ items (table (expirationCheck Ex.range Ex.negative)) !! "b" = None
        ∧ items (table (Add Ex.range "c" 3 "z" 1 Ex.negative).1) !! "b" = None.
Proof.
  eexists. split_and!; [split; reflexivity|reflexivity| |reflexivity|vm_compute; reflexivity].
  intros [H _]. vm_compute in H. discriminate.
Qed.

Lemma expirationCheck_spec_witness :
  let w := Ex.mixed in
  let w' := expirationCheck Ex.range w in
  Forall (λ it, lifeSpan it <= max_int64 ∧ accessedOn it <= clock w) (heap w)
  ∧ (∀ k p, items (table w') !! k = Some p ↔
            items (table w) !! k = Some p ∧ ∀ it, heap w !! p = Some it → ¬ elapsed (clock w) it)
  ∧ events w' = events w ++
      scan_events (heap w) (aboutToDeleteItem (table w)) (clock w) (Ex.range (items (table w)))
  ∧ (∃ k p it, holds w k p it ∧ ¬ elapsed (clock w) it ∧ lifeSpan it ≠ 0
               ∧ cleanupInterval (table w') = remaining (clock w) it).
Proof.
  intros w w'.
  assert (HF : Forall (λ it, lifeSpan it <= max_int64 ∧ accessedOn it <= clock w) (heap w)).
  { repeat constructor; vm_compute; discriminate. }
  destruct (expirationCheck_spec Ex.range range_is_permutation w (holds_Forall w _ HF))
    as (H1 & _ & _ & H4 & _ & _ & H7).
  split_and!; [exact HF|exact H1|exact H4|].
  apply H7. exists "a", 0%nat. eexists. split_and!; [split; reflexivity| |].
  - intros [_ Hle]. vm_compute in Hle. by apply Hle.
  - vm_compute. discriminate.
Defined.

Lemma MostAccessed_spec_witness :
  counts Ex.ranked ≡ₚ [5; 1; 9; 3]
  ∧ countOf Ex.ranked <$> MostAccessed Ex.range Ex.sort_Sort 2 Ex.ranked = [9; 5].
Proof.
  assert (Hp : counts Ex.ranked ≡ₚ [5; 1; 9; 3]).
  { replace (counts Ex.ranked) with [9; 5; 1; 3] by (vm_compute; reflexivity).
    apply (Permutation_trans (l' := [5; 9; 1; 3])); [apply perm_swap|].
    apply perm_skip, perm_swap. }
  split; [exact Hp|].
  destruct (MostAccessed_spec Ex.range range_is_permutation Ex.sort_Sort
              sort_Sort_is_permutation sort_Sort_is_sorted 2 Ex.ranked)
    as (_ & _ & _ & _ & H).
  by apply H.
Defined.

(** C4, as stated, fails on a lifespan shorter than the call: on the empty
    table [NotFoundAdd "k" 1 "v"], with the scheduler reading the clock 1
    after the item was made, returns true and the key is not retrievable:
    [Exists] is false, [Value] fails, and a second [NotFoundAdd] finds the
    key absent again. *)
Lemma NotFoundAdd_true_and_key_absent :
  let r := NotFoundAdd Ex.range "k" 1 "v" 1 Ex.myCache in
  items (table Ex.myCache) !! "k" = None
  ∧ r.2 = true
  ∧ items (table r.1) !! "k" = None
  ∧ Exists "k" r.1 = false
  ∧ (Value Ex.range "k" [] 0 0 r.1).2 = Err ErrKeyNotFound
  ∧ (NotFoundAdd Ex.range "k" 1 "v" 1 r.1).2 = true.
Proof. vm_compute. by split_and!. Qed.

Lemma NotFoundAdd_spec_witness :
  NotFoundAdd Ex.range "a" 3 "new" 1 Ex.mixed = (Ex.mixed, false)
  ∧ (let r := NotFoundAdd Ex.range "k" 3 "new" 1 Ex.mixed in
     r.2 = true ∧ Exists "k" r.1 = true ∧ (Value Ex.range "k" [] 0 0 r.1).2 = Ok 3%nat)
  ∧ (let r := NotFoundAdd Ex.range "k" 3 "new" 5 Ex.mixed in
     r.2 = true ∧ Exists "k" r.1 = false).
Proof.
  destruct (NotFoundAdd_spec Ex.range range_is_permutation "a" 3 "new" 1%N Ex.mixed) as [Hin _].
  destruct (NotFoundAdd_spec Ex.range range_is_permutation "k" 3 "new" 1%N Ex.mixed) as [_ Hout].
  destruct (NotFoundAdd_spec Ex.range range_is_permutation "k" 3 "new" 5%N Ex.mixed) as [_ Hlate].
  split_and!.
  - apply (Hin 0%nat). vm_compute. reflexivity.
  - destruct Hout as (H1 & _ & _ & H4 & _); [vm_compute; reflexivity|].
    destruct H4 as (_ & H5 & H6); [right; left; lia|].
    split_and!; [exact H1|exact H5|exact (H6 0%N 0%N)].
  - destruct Hlate as (H1 & _ & _ & _ & H5); [vm_compute; reflexivity|].
    destruct H5 as (_ & H5); [lia|unfold max_int64; lia|right; vm_compute; reflexivity|].
    split; [exact H1|exact H5].
Defined.

Lemma errors_spec_witness :
  Delete "zz" Ex.mixed = (Ex.mixed, Err ErrKeyNotFound)
  ∧ Value Ex.range "zz" [] 1 1 Ex.mixed = (Ex.mixed, Err ErrKeyNotFound)
  ∧ Value Ex.range "zz" [] 1 1 Ex.declining = (Ex.declining, Err ErrKeyNotFoundOrLoadable).
Proof.
  destruct (errors_spec Ex.range "zz" [] 1%N 1%N Ex.mixed) as (H1 & H2 & _).
  destruct (errors_spec Ex.range "zz" [] 1%N 1%N Ex.declining) as (_ & _ & H3 & _).
  split_and!.
  - by apply H1.
  - by apply H2.
  - by apply (H3 (λ _ _, None)).
Defined.

Lemma addInternal_trigger_witness :
  (heap (Ex.pending 3) !! 3%nat = Some (Ex.pending_item 3)
   ∧ cleanupInterval (table (Ex.pending 3)) = 4
   ∧ addInternal Ex.range 3%nat (Ex.pending 3) =
       expirationCheck Ex.range (stored 3%nat (Ex.pending_item 3) (Ex.pending 3)))
  ∧ (heap (Ex.pending 6) !! 3%nat = Some (Ex.pending_item 6)
     ∧ cleanupInterval (table (Ex.pending 6)) = 4
     ∧ addInternal Ex.range 3%nat (Ex.pending 6) =
         stored 3%nat (Ex.pending_item 6) (Ex.pending 6)).
Proof.
  assert (H3 : heap (Ex.pending 3) !! 3%nat = Some (Ex.pending_item 3))
    by (vm_compute; reflexivity).
  assert (H6 : heap (Ex.pending 6) !! 3%nat = Some (Ex.pending_item 6))
    by (vm_compute; reflexivity).
  destruct (addInternal_trigger Ex.range 3%nat (Ex.pending_item 3) (Ex.pending 3) H3)
    as (_ & _ & Hyes & _).
  destruct (addInternal_trigger Ex.range 3%nat (Ex.pending_item 6) (Ex.pending 6) H6)
    as (_ & _ & _ & Hno).
  split; (split; [assumption|]); (split; [vm_compute; reflexivity|]).
  - apply Hyes. vm_compute. split; [reflexivity|right; reflexivity].
  - apply Hno. intros [_ [H|H]]; vm_compute in H; discriminate.
Defined.

Lemma callback_lists_witness :
  let wi := foldl (λ w g, AddAboutToExpireCallback 2%nat g w)
              (SetAboutToExpireCallback 2%nat 1%nat Ex.mixed) [2%nat; 3%nat] in
  aboutToExpire <$> heap Ex.mixed !! 2%nat = Some [7%nat]
  ∧ aboutToExpire <$> heap wi !! 2%nat = Some [1%nat; 2%nat; 3%nat]
  ∧ events (Delete "c" wi).1 =
      [AboutToDeleteItemCall 1%nat 2%nat; AboutToExpireCall 1%nat "c";
       AboutToExpireCall 2%nat "c"; AboutToExpireCall 3%nat "c"].
Proof.
  intros wi.
  destruct (callback_lists Ex.range 1%nat [2%nat; 3%nat] Ex.mixed) as (_ & _ & _ & _ & H).
  split; [reflexivity|]. eapply (H "c" 2%nat). split; reflexivity.
Defined.

Lemma accessCount_accessedOn_monotone_witness :
  let ops1 := [CallAdd "a" 10 "x" 2; CallValue "a" [] 0 0; Sleep 3] in
  let ops2 := [CallValue "a" [] 0 0; CallAdd "a" 1 "y" 1; Sleep 5; TimerFires; CallFlush] in
  (∃ it', heap (KeepAlive 0%nat Ex.mixed) !! 0%nat = Some it'
          ∧ accessedOn it' = 7 ∧ accessCount it' = 2)
  ∧ heap_le (heap (run Ex.range ops1 Ex.myCache))
            (heap (run Ex.range (ops1 ++ ops2) Ex.myCache)).
Proof.
  intros ops1 ops2.
  destruct (accessCount_accessedOn_monotone (K:=string) (V:=string) Ex.range) as [Hkeep Hrun].
  split.
  - destruct (Hkeep Ex.mixed 0%nat _ eq_refl) as (it' & H1 & H2 & H3).
    + vm_compute. split; [discriminate|reflexivity].
    + exists it'. by split_and!.
  - apply Hrun. split; [vm_compute; discriminate|].
    intros p it Hp. unfold Ex.myCache, Ex.Cache in Hp. cbn [heap] in Hp.
    by rewrite lookup_nil in Hp.
Defined.

Lemma NewCacheItem_pristine_witness :
  let r := Add Ex.range "k" 3 "v" 2 Ex.mixed in
  ∃ it, heap r.1 !! r.2 = Some it
        ∧ pristine 7 "k" 3 "v" it
        ∧ accessCount it = 0 ∧ accessedOn it = createdOn it ∧ aboutToExpire it = []
        ∧ items (table r.1) !! "k" = Some r.2.
Proof.
  destruct (NewCacheItem_pristine Ex.range range_is_permutation "k" 3 "v" 2%N Ex.mixed)
    as (_ & H & _).
  destruct H as (it & H1 & H2 & H3 & H4 & H5 & H6).
  exists it. split_and!; [exact H1|exact H2|exact H3|exact H4|exact H5|].
  apply H6. right. lia.
Defined.

(** X1, on the table [Ex.mixed]: deleting "c", which is item 2. *)
Lemma Delete_present_witness :
  let r := Delete "c" Ex.mixed in
  r.2 = Ok 2%nat ∧ Exists "c" r.1 = false ∧ Count r.1 = 2%nat
  ∧ Delete "c" r.1 = (r.1, Err ErrKeyNotFound).
Proof.
  destruct (Delete_present "c" 2%nat
              {| key := "c"; data := "z"; lifeSpan := 4; createdOn := 0; accessedOn := 0;
                 accessCount := 0; aboutToExpire := [7%nat] |} Ex.mixed)
    as (H1 & _ & H3 & H4 & _ & _ & _ & _ & H9); [split; vm_compute; reflexivity|].
  split_and!; [exact H1|exact H3|exact H4|exact H9].
Defined.

(** X2, on the table [Ex.mixed]: a lifespan of 3, the scheduler 1 after the
    item was made, the read 4 after that. *)
Lemma Add_then_Value_witness :
  let a := Add Ex.range "k" 3 "v" 1 Ex.mixed in
  let v := Value Ex.range "k" [] 0 0 (set_clock (clock a.1 + 4) a.1) in
  v.2 = Ok a.2 ∧ Data a.2 v.1 = Some "v" ∧ CreatedOn a.2 v.1 = Some 7
  ∧ AccessedOn a.2 v.1 = Some 12 ∧ CacheItem_AccessCount a.2 v.1 = Some 1.
Proof.
  destruct (Add_then_Value Ex.range range_is_permutation "k" 3 "v" 1%N 4%N [] 0%N 0%N Ex.mixed)
    as (H1 & _ & H3 & _ & H5 & H6 & H7 & _); [right; lia|].
  split_and!; [exact H1|exact H3|exact H5|exact H6|exact H7].
Defined.

(** X3, on the table [Ex.mixed], whose interval is 4: an item of lifespan 0
    under a new key. *)
Lemma Add_immortal_witness :
  let r := Add Ex.range "k" 0 "v" 1 Ex.mixed in
  Count r.1 = 4%nat ∧ cleanupInterval (table r.1) = cleanupInterval (table Ex.mixed).
Proof.
  destruct (Add_immortal Ex.range "k" 0 "v" 1%N Ex.mixed) as (_ & H2 & _ & _ & H5); [lia|].
  split; [exact H2|exact H5].
Defined.

(** X4, on the table [Ex.mixed], which has no key "k" and whose interval is
    4: a lifespan of 3, not over after 1 and over after 5. *)
Lemma NotFoundAdd_twice_witness :
  items (table Ex.mixed) !! "k" = None
  ∧ (let r := NotFoundAdd Ex.range "k" 3 "v" 1 Ex.mixed in
     r.2 = true ∧ NotFoundAdd Ex.range "k" 5 "other" 0 r.1 = (r.1, false))
  ∧ (let r := NotFoundAdd Ex.range "k" 3 "v" 5 Ex.mixed in
     r.2 = true ∧ (NotFoundAdd Ex.range "k" 5 "other" 0 r.1).2 = true).
Proof.
  assert (H : items (table Ex.mixed) !! "k" = None) by (vm_compute; reflexivity).
  destruct (NotFoundAdd_twice Ex.range range_is_permutation "k" 3 "v" 1%N 5 "other" 0%N
              Ex.mixed H) as (H1 & H2 & _).
  destruct (NotFoundAdd_twice Ex.range range_is_permutation "k" 3 "v" 5%N 5 "other" 0%N
              Ex.mixed H) as (H3 & _ & H4).
  split; [exact H|]. split.
  - split; [exact H1|]. apply H2. right. left. lia.
  - split; [exact H3|].
    apply H4; [lia|unfold max_int64; lia|right; vm_compute; reflexivity].
Defined.


(** X7, on the table [Ex.mixed]: item 0, of key "a", over a run that reads
    it, replaces it and lets it expire. *)
Lemma identity_kept_witness :
  let w' := run Ex.range [CallValue "a" [] 0 0; CallAdd "a" 1 "y" 2; Sleep 20; TimerFires; CallFlush]
              Ex.mixed in
  CacheItem_Key 0%nat w' = Some "a" ∧ Data 0%nat w' = Some "x"
  ∧ LifeSpan 0%nat w' = Some 10 ∧ CreatedOn 0%nat w' = Some 0.
Proof.
  destruct (identity_kept Ex.range
              [CallValue "a" [] 0 0; CallAdd "a" 1 "y" 2; Sleep 20; TimerFires; CallFlush]
              Ex.mixed 0%nat
              {| key := "a"; data := "x"; lifeSpan := 10; createdOn := 0; accessedOn := 6;
                 accessCount := 1; aboutToExpire := [] |})
    as (H1 & H2 & H3 & H4); [vm_compute; reflexivity|].
  split_and!; [exact H1|exact H2|exact H3|exact H4].
Defined.

(** X8, from the empty table. *)
Lemma table_wf_kept_witness :
  let w' := run Ex.range [CallAdd "a" 10 "x" 1; CallAdd "b" 0 "y" 1; CallAdd "a" 2 "z" 3;
                          Sleep 5; TimerFires] Ex.myCache in
  table_wf Ex.myCache ∧ table_wf w'.
Proof.
  assert (H : table_wf Ex.myCache).
  { intros k p Hk. vm_compute in Hk. discriminate. }
  split; [exact H|].
  exact (proj1 (table_wf_kept Ex.range range_is_permutation
                  [CallAdd "a" 10 "x" 1; CallAdd "b" 0 "y" 1; CallAdd "a" 2 "z" 3;
                   Sleep 5; TimerFires] Ex.myCache H)).
Defined.

(** X9, on the table [Ex.mixed]: reading "b" leaves "a" where it is. *)
Lemma entry_leaves_witness :
  items (table (step Ex.range Ex.mixed (CallValue "b" [] 0 0))) !! "a" = Some 0%nat.
Proof.
  destruct (entry_leaves Ex.range range_is_permutation (CallValue "b" [] 0 0) Ex.mixed "a" 0%nat
              {| key := "a"; data := "x"; lifeSpan := 10; createdOn := 0; accessedOn := 6;
                 accessCount := 1; aboutToExpire := [] |})
    as [H|[H|[H|[(l & d & late & H)|H]]]];
    [split; vm_compute; reflexivity|exact H|discriminate H..|].
  vm_compute in H. discriminate H.
Defined.

(** X10, from the empty table. *)
Lemma timer_ok_kept_witness :
  timer_ok Ex.myCache
  ∧ timer_ok (run Ex.range [CallAdd "a" 10 "x" 1; Sleep 12; TimerFires; CallAdd "b" 3 "y" 4;
                            CallFlush] Ex.myCache).
Proof.
  assert (H : timer_ok Ex.myCache).
  { split.
    - intros H. vm_compute in H. discriminate H.
    - intros (tm & H & _). vm_compute in H. discriminate H. }
  split; [exact H|]. exact (timer_ok_kept Ex.range _ Ex.myCache H).
Defined.



(** X13, on the table [Ex.ranked], of four items. *)
Lemma MostAccessed_size_witness :
  length (MostAccessed Ex.range Ex.sort_Sort 3 Ex.ranked) = 3%nat
  ∧ length (MostAccessed Ex.range Ex.sort_Sort 9 Ex.ranked) = 4%nat.
Proof.
  split.
  - exact (proj1 (MostAccessed_size Ex.range range_is_permutation Ex.sort_Sort
                    sort_Sort_is_permutation 3 Ex.ranked)).
  - exact (proj1 (MostAccessed_size Ex.range range_is_permutation Ex.sort_Sort
                    sort_Sort_is_permutation 9 Ex.ranked)).
Defined.

(** X14, on the table [Ex.mixed], of three entries. *)
Lemma Foreach_visits_witness :
  length (Foreach Ex.range (λ k p acc, acc ++ [(k, p)]) [] Ex.mixed) = 3%nat
  ∧ Foreach Ex.range (λ _ _ n, S n) 0%nat Ex.mixed = 3%nat.
Proof.
  destruct (Foreach_visits Ex.range range_is_permutation Ex.mixed) as (_ & H2 & _ & _ & H5).
  split; [exact H2|]. rewrite H5. vm_compute. reflexivity.
Defined.

(** X15, when the program starts: the table "myCache" is made by the first
    call, and found by the second. *)
Lemma Cache_spec_witness :
  let r := Cache "myCache" Ex.registry in
  registry_wf Ex.registry ∧ registry_wf r.2 ∧ Cache "myCache" r.2 = r
  ∧ registry_wf (Cache "other" r.2).2.
Proof.
  assert (H0 : registry_wf Ex.registry).
  { intros n t H. vm_compute in H. discriminate H. }
  destruct (Cache_spec "myCache" Ex.registry H0) as (H1 & _ & H3 & _).
  destruct (Cache_spec "other" (Cache "myCache" Ex.registry).2 H1) as (H4 & _).
  split_and!; [exact H0|exact H1|exact H3|exact H4].
Defined.
